(** * tson: the JSON tree editor of package [gui] (src/gui/gui.go)

    The development embeds the conversion engine of the editor:
    the scalar parser ([parseValue]), the tree serializer ([makeJSON]),
    the substring filter ([walk], [Search]) and the graft operations
    ([AddNode], [AddValue]) together with the decoder front end
    ([UnMarshalJSON]), the load callback ([LoadJSON]) and the value that
    [SaveJSON] hands to the encoder.  The forms, pages and widgets of the
    terminal interface are not part of it.

    Conventions.
    - A Go [string] is a sequence of bytes: Rocq's [string].
    - Go's [int] is the 64-bit signed integer; it is carried by [Z] and the
      only place where its range matters ([Atoi]) clamps explicitly.
    - A run-time panic (an index out of range, a pointer that leads
      nowhere) is the result [Panic]; functions that follow pointers
      through the store take a fuel argument and answer [OutOfFuel] when
      it is exhausted.
    - [float64] and the functions of the Go standard library that produce
      and print it are parameters of the development; so are the JSON
      decoder and the lower-case mapping of Unicode that [strings.ToLower]
      applies to a text that is not ASCII. *)

From Stdlib Require Import ZArith Lia Bool Ascii String List Permutation.
From Stdlib Require OrderedTypeEx.
From stdpp Require Import base option list.
Import ListNotations.
Set Warnings "-register-all".
Set Default Proof Using "Type".
Local Open Scope string_scope.
Local Open Scope list_scope.
Local Open Scope Z_scope.

(** ** Results of partial computations *)

Inductive Res (A : Type) : Type :=
| Ok (a : A)
| Panic
| OutOfFuel.
Arguments Ok {A} a.
Arguments Panic {A}.
Arguments OutOfFuel {A}.

#[global] Instance Res_ret : MRet Res := fun _ a => Ok a.
#[global] Instance Res_bind : MBind Res := fun _ _ k r =>
  match r with
  | Ok a => k a
  | Panic => Panic
  | OutOfFuel => OutOfFuel
  end.

#[global] Instance Res_fmap : FMap Res := fun _ _ f r =>
  match r with
  | Ok a => Ok (f a)
  | Panic => Panic
  | OutOfFuel => OutOfFuel
  end.

(** ** The pieces of packages [strings] and [strconv] that the code calls *)

Module strings.

(** [unicode.ToLower] on one byte of ASCII text: 'A'..'Z' move to
    'a'..'z', every other byte stays. *)
Definition lower_byte (c : ascii) : ascii :=
  let n := N_of_ascii c in
  if ((65 <=? n) && (n <=? 90))%N then ascii_of_N (n + 32) else c.

(** No byte of the text is [utf8.RuneSelf] (128) or above. *)
Fixpoint isASCII (s : string) : bool :=
  match s with
  | EmptyString => true
  | String c s' => (N_of_ascii c <? 128)%N && isASCII s'
  end.

(** The loop of [ToLower] over a text that is ASCII; a text without
    capitals comes back as it is. *)
Fixpoint lower_ascii (s : string) : string :=
  match s with
  | EmptyString => EmptyString
  | String c s' => String (lower_byte c) (lower_ascii s')
  end.

(** [strings.ToLower]: a text that is ASCII is lowered byte by byte; any
    other text is mapped rune by rune through the case tables of Unicode,
    which are not modelled: [Map_ToLower] stands for
    [strings.Map(unicode.ToLower, s)] on such a text. *)
Definition ToLower (Map_ToLower : string -> string) (s : string) : string :=
  if isASCII s then lower_ascii s else Map_ToLower s.

Fixpoint HasPrefix (s prefix : string) : bool :=
  match prefix, s with
  | EmptyString, _ => true
  | String _ _, EmptyString => false
  | String a p', String b s' => if Ascii.eqb a b then HasPrefix s' p' else false
  end.

(** [index_from i s substr]: the offset, counted from [i], of the first
    occurrence of [substr] in [s]; [-1] when there is none. *)
Fixpoint index_from (i : Z) (s substr : string) : Z :=
  if HasPrefix s substr then i
  else match s with
       | EmptyString => -1
       | String _ s' => index_from (i + 1) s' substr
       end.

Definition Index (s substr : string) : Z := index_from 0 s substr.

End strings.

Module strconv.

(** The error half of a [strconv] result: [nil], a syntax error or a
    range error. *)
Inductive NumError := ErrSyntax | ErrRange.

Definition digit (c : ascii) : option Z :=
  let n := Z.of_N (N_of_ascii c) in
  if (48 <=? n) && (n <=? 57) then Some (n - 48) else None.

(** The loop of the fast path of [Atoi]: the number read so far is
    multiplied by ten and the digit is added; a byte that is no digit ends
    it. *)
Fixpoint digits (s : string) (acc : Z) : option Z :=
  match s with
  | EmptyString => Some acc
  | String c s' =>
      match digit c with
      | Some d => digits s' (acc * 10 + d)
      | None => None
      end
  end.

Definition maxInt : Z := 2 ^ 63 - 1.
Definition minInt : Z := - 2 ^ 63.
Definition maxUint64 : Z := 2 ^ 64 - 1.

(** The loop of [strconv.ParseUint(s, 10, 64)] over the bytes of [s], [n]
    being the [uint64] read so far.  A byte that is no digit ends it with
    a syntax error; a digit that takes the number beyond [uint64] ends it
    at once, with the largest [uint64] and a range error, whatever follows
    the digit. *)
Fixpoint ParseUint_loop (s : string) (n : Z) : Z * option NumError :=
  match s with
  | EmptyString => (n, None)
  | String c s' =>
      match digit c with
      | None => (0, Some ErrSyntax)
      | Some d =>
          if maxUint64 / 10 + 1 <=? n then (maxUint64, Some ErrRange)
          else
            let n := (n * 10) mod 2 ^ 64 in
            let n1 := (n + d) mod 2 ^ 64 in
            if (n1 <? n) || (maxUint64 <? n1) then (maxUint64, Some ErrRange)
            else ParseUint_loop s' n1
      end
  end.

Definition ParseUint (s : string) : Z * option NumError :=
  match s with
  | EmptyString => (0, Some ErrSyntax)
  | _ => ParseUint_loop s 0
  end.

(** [strconv.ParseInt(s, 10, 0)] with a 64-bit [int]: the sign is picked
    off, the rest is read as a [uint64], and the range of [int] is checked.
    A range error of [ParseUint] is not returned as it is: its number goes
    through the range check. *)
Definition ParseInt (s : string) : Z * option NumError :=
  match s with
  | EmptyString => (0, Some ErrSyntax)
  | String c r =>
      let '(neg, body) :=
        if Ascii.eqb c "+" then (false, r)
        else if Ascii.eqb c "-" then (true, r)
        else (false, s) in
      let '(un, err) := ParseUint body in
      match err with
      | Some ErrSyntax => (0, Some ErrSyntax)
      | _ =>
          let cutoff := 2 ^ 63 in
          if negb neg && (cutoff <=? un) then (cutoff - 1, Some ErrRange)
          else if neg && (cutoff <? un) then (- cutoff, Some ErrRange)
          else (if neg then - un else un, None)
      end
  end.

(** [strconv.Atoi] with a 64-bit [int].  A text of 1 to 18 bytes takes the
    fast path: an optional sign, then the loop [digits], which cannot
    overflow.  Every other text goes through [ParseInt]. *)
Definition Atoi (s : string) : Z * option NumError :=
  let sLen := String.length s in
  if ((0 <? sLen) && (sLen <? 19))%nat then
    match s with
    | EmptyString => (0, Some ErrSyntax)
    | String c r =>
        let signed := Ascii.eqb c "-" || Ascii.eqb c "+" in
        let body := if signed then r else s in
        if signed && (String.length body <? 1)%nat then (0, Some ErrSyntax)
        else
          match digits body 0 with
          | None => (0, Some ErrSyntax)
          | Some n => (if Ascii.eqb c "-" then - n else n, None)
          end
    end
  else ParseInt s.

(** [strconv.ParseBool]: exactly twelve spellings are accepted. *)
Definition ParseBool (str : string) : bool * option NumError :=
  if String.eqb str "1" || String.eqb str "t" || String.eqb str "T"
     || String.eqb str "TRUE" || String.eqb str "true" || String.eqb str "True"
  then (true, None)
  else if String.eqb str "0" || String.eqb str "f" || String.eqb str "F"
          || String.eqb str "FALSE" || String.eqb str "false" || String.eqb str "False"
  then (false, None)
  else (false, Some ErrSyntax).

(** Decimal rendering of an integer ([strconv.Itoa]). *)
Definition digit_char (d : Z) : ascii := ascii_of_N (Z.to_N (48 + d)).

Fixpoint utoa (fuel : nat) (n : Z) (acc : string) : string :=
  match fuel with
  | O => acc
  | S fuel' =>
      let acc' := String (digit_char (n mod 10)) acc in
      if n <? 10 then acc' else utoa fuel' (n / 10) acc'
  end.

(** Enough fuel for every digit of [n]: [n < 2 ^ digits_fuel n]. *)
Definition digits_fuel (n : Z) : nat := S (Z.to_nat (Z.log2 n)).

Definition Itoa (i : Z) : string :=
  if i <? 0 then String "-" (utoa (digits_fuel (- i)) (- i) EmptyString)
  else utoa (digits_fuel i) i EmptyString.

End strconv.

(** ** Node tags *)

(** Modelled from the spec: the declaration of [JSONType] is not part of
    gui.go, which only names its members; the four kinds are those of the
    spec's data model. *)
Inductive JSONType := Object | Array | Key | Value.

(** Modelled from the spec: the declaration of [ValueType] is not part of
    gui.go; the five scalar types are those of the spec's data model.
    [String] also stands for the value of the field in a node that is not
    a leaf, which [parseValue] treats like a string. *)
Inductive ValueType := Int | Float | Boolean | Null | String.

(** Modelled from the spec: the declaration of [Reference] is not part of
    gui.go, which reads its fields [JSONType] and [ValueType]. *)
Record Reference : Type := mkReference {
  refJSONType : JSONType;
  refValueType : ValueType
}.

#[global] Instance JSONType_eq_dec : EqDecision JSONType.
Proof. solve_decision. Defined.
#[global] Instance ValueType_eq_dec : EqDecision ValueType.
Proof. solve_decision. Defined.

(** ** Go values and JSON values *)

Section Gui.

(** [float64], and [strconv.ParseFloat] with its error. *)
Context {float64 : Type}.
Variable ParseFloat : string -> float64 * option strconv.NumError.

(** The dynamic values that [makeJSON] returns as [interface{}].
    - [GSlice None] is the nil slice, [GSlice (Some l)] an allocated one.
    - [GMap] is a [map[string]interface{}].  A Go map has no order; the
      model keeps its bindings in a list sorted by key, without repeated
      keys, written only through [map_set]: two maps with the same
      bindings are the same list.  Sorted by key is also how
      [encoding/json] writes a map. *)
Inductive GoValue : Type :=
| GNil
| GBool (b : bool)
| GInt (i : Z)
| GFloat (f : float64)
| GString (s : string)
| GSlice (s : option (list GoValue))
| GMap (m : list (string * GoValue)).

(** [m[k] = v]: the binding of [k] is replaced, or a new one takes its
    place in the order of the keys (bytewise, as Go compares strings). *)
Fixpoint map_set {V : Type} (m : list (string * V)) (k : string) (v : V)
  : list (string * V) :=
  match m with
  | [] => [(k, v)]
  | (k', v') :: m' =>
      match String.compare k k' with
      | Lt => (k, v) :: m
      | Eq => (k', v) :: m'
      | Gt => (k', v') :: map_set m' k v
      end
  end.

(** [append(s, v)] on a possibly nil slice *)
Definition append {V : Type} (s : option (list V)) (v : V) : option (list V) :=
  match s with
  | None => Some [v]
  | Some l => Some (l ++ [v])
  end.

(** A JSON value as a document holds it: the properties of an object in
    the order in which they are written, a number integral or a float. *)
Inductive Number : Type :=
| NInt (z : Z)
| NFloat (f : float64).

Inductive JSON : Type :=
| JNull
| JBool (b : bool)
| JNumber (n : Number)
| JString (s : string)
| JArray (l : list JSON)
| JObject (o : list (string * JSON)).

(** The JSON value that [encoding/json] writes for a Go value.  A nil
    slice is written as [null], an allocated one as an array, a map as an
    object with its keys sorted. *)
Fixpoint encode (v : GoValue) : JSON :=
  match v with
  | GNil => JNull
  | GBool b => JBool b
  | GInt i => JNumber (NInt i)
  | GFloat f => JNumber (NFloat f)
  | GString s => JString s
  | GSlice None => JNull
  | GSlice (Some l) => JArray (List.map encode l)
  | GMap m => JObject (List.map (fun kv => let '(k, x) := kv in (k, encode x)) m)
  end.

(** ** Tree nodes as values *)

(** The serializer only reads the nodes below its argument, so it is
    embedded over the tree that a [*tview.TreeNode] denotes: its text, its
    reference and the trees of its children, in order ([tree_of] below
    reads this tree out of the store).  Every node carries a [Reference]:
    the type assertion [node.GetReference().(Reference)] succeeds. *)
Inductive tree : Type :=
| Node (text : string) (reference : Reference) (children : list tree).

Definition GetText (n : tree) : string := let 'Node t _ _ := n in t.
Definition GetReference (n : tree) : Reference := let 'Node _ r _ := n in r.
Definition GetChildren (n : tree) : list tree := let 'Node _ _ c := n in c.

(** ** The scalar parser (gui.go, parseValue) *)

Definition parseValue (node : tree) : GoValue :=
  let v := GetText node in
  let ref := GetReference node in
  match refValueType ref with
  | Int => let '(i, _) := strconv.Atoi v in GInt i
  | Float => let '(f, _) := ParseFloat v in GFloat f
  | Boolean => let '(b, _) := strconv.ParseBool v in GBool b
  | Null => GNil
  | String => GString v
  end.

(** ** The tree serializer (gui.go, makeJSON) *)

Fixpoint makeJSON (node : tree) : Res GoValue :=
  match node with
  | Node text ref children =>
      match refJSONType ref with
      | Object =>
          (fix range (ns : list tree) (i : list (string * GoValue)) : Res GoValue :=
             match ns with
             | [] => Ok (GMap i)
             | n :: ns' => x ← makeJSON n; range ns' (map_set i (GetText n) x)
             end) children []
      | Array =>
          (fix range (ns : list tree) (i : option (list GoValue)) : Res GoValue :=
             match ns with
             | [] => Ok (GSlice i)
             | n :: ns' => x ← makeJSON n; range ns' (append i x)
             end) children None
      | Key =>
          match children with
          | [] => Panic
          | v :: _ =>
              if decide (refJSONType (GetReference v) = Value) then Ok (parseValue v)
              else x ← makeJSON v; Ok (GMap [(text, x)])
          end
      | Value => Ok (parseValue node)
      end
  end.

(** ** The tree builder *)

(** [strconv.FormatFloat]: the canonical rendering of a float. *)
Variable FormatFloat : float64 -> string.

(** Modelled from the spec: the scalar classifier of section 4.1, which is
    not part of gui.go.  An integral number is rendered in decimal. *)
Definition classify (v : JSON) : ValueType * string :=
  match v with
  | JNull => (Null, "null")
  | JBool b => (Boolean, if b then "true" else "false")
  | JNumber (NInt z) => (Int, strconv.Itoa z)
  | JNumber (NFloat f) => (Float, FormatFloat f)
  | JString s => (String, s)
  | JArray _ | JObject _ => (String, "")
  end.

(** Modelled from the spec: the tree builder of section 4.2, which is not
    part of gui.go.  The spec leaves the text of an [Object] or [Array]
    node open; the serializer never reads it, and it is empty here. *)
Fixpoint build (v : JSON) : tree :=
  match v with
  | JObject o =>
      Node "" (mkReference Object String)
        (List.map (fun kv => let '(k, x) := kv in
                           Node k (mkReference Key String) [build x]) o)
  | JArray l => Node "" (mkReference Array String) (List.map build l)
  | _ => let '(t, label) := classify v in Node label (mkReference Value t) []
  end.

(** Modelled from the spec: [buildTopLevelChildren] of section 4.3, the
    result of [Tree.AddNode], which is not part of gui.go. *)
Definition buildTopLevelChildren (v : JSON) : list tree :=
  match v with
  | JObject _ | JArray _ => GetChildren (build v)
  | _ => [build v]
  end.

(** ** The store of tree nodes *)

(** [*tview.TreeNode] is a pointer: an index into the store.  A node is
    never freed and keeps its index; [new] returns the first unused one.
    An index outside of the store faults when it is dereferenced.  Go's
    nil pointer has no index of its own: an editor whose root, selection
    or snapshot is nil (the editor that [New()] returns, before a load) is
    outside of the model, and no statement below is about one.  The
    children of a node are the elements of its slice; the capacity of a
    slice, and the backing array that the copies of a node share, are not
    part of the model. *)

Abbreviation ptr := nat (only parsing).

Record TreeNode : Type := mkTreeNode {
  n_text : string;
  n_reference : Reference;
  n_children : list ptr
}.

Abbreviation store := (list TreeNode) (only parsing).

Definition deref (h : store) (p : ptr) : Res TreeNode :=
  match h !! p with
  | Some c => Ok c
  | None => Panic
  end.

Definition new (h : store) (c : TreeNode) : ptr * store := (length h, h ++ [c]).

(** [n.SetChildren(childNodes)] and [n.AddChild(node)] of tview *)
Definition SetChildren (h : store) (n : ptr) (childNodes : list ptr) : Res store :=
  c ← deref h n;
  Ok (<[n := mkTreeNode (n_text c) (n_reference c) childNodes]> h).

Definition AddChild (h : store) (n : ptr) (node : ptr) : Res store :=
  c ← deref h n;
  Ok (<[n := mkTreeNode (n_text c) (n_reference c) (n_children c ++ [node])]> h).

(** The tree that the node at [p] denotes, when following at most [fuel]
    levels of children reaches leaves everywhere. *)
Fixpoint tree_of (fuel : nat) (h : store) (p : ptr) : option tree :=
  match fuel with
  | O => None
  | S fuel' =>
      c ← h !! p;
      cs ← mapM (tree_of fuel' h) (n_children c);
      Some (Node (n_text c) (n_reference c) cs)
  end.

(** Modelled from the spec: the builder makes new nodes; a built tree is
    put into the store node by node, children before their parent. *)
Fixpoint alloc (t : tree) (h : store) : ptr * store :=
  match t with
  | Node text ref children =>
      let '(ps, h1) :=
        (fix allocs (ts : list tree) (h : store) : list ptr * store :=
           match ts with
           | [] => ([], h)
           | t' :: ts' =>
               let '(p, h') := alloc t' h in
               let '(ps, h'') := allocs ts' h' in
               (p :: ps, h'')
           end) children h in
      new h1 (mkTreeNode text ref ps)
  end.

(** Modelled from the spec: [alloc] for a sequence of built trees. *)
Fixpoint allocs (ts : list tree) (h : store) : list ptr * store :=
  match ts with
  | [] => ([], h)
  | t :: ts' =>
      let '(p, h') := alloc t h in
      let '(ps, h'') := allocs ts' h' in
      (p :: ps, h'')
  end.

(** Modelled from the spec: [Tree.AddNode], which is not part of gui.go,
    is [buildTopLevelChildren] of section 4.3 and returns pointers to the
    new nodes. *)
Definition Tree_AddNode (i : JSON) (h : store) : list ptr * store :=
  allocs (buildTopLevelChildren i) h.

(** ** The substring filter (gui.go, walk and Search) *)

(** [strings.Map(unicode.ToLower, s)], which [strings.ToLower] calls on a
    text that is not ASCII. *)
Variable Map_ToLower : string -> string.

Definition matches (label text : string) : bool :=
  negb (strings.Index (strings.ToLower Map_ToLower label) text =? -1).

Fixpoint walk (fuel : nat) (h : store) (nodes : list ptr) (text : string)
  : Res (list ptr) :=
  match fuel with
  | O => OutOfFuel
  | S fuel' =>
      (fix range (ns : list ptr) (newNodes : list ptr) : Res (list ptr) :=
         match ns with
         | [] => Ok newNodes
         | child :: ns' =>
             c ← deref h child;
             if matches (n_text c) text then range ns' (newNodes ++ [child])
             else r ← walk fuel' h (n_children c) text; range ns' (newNodes ++ r)
         end) nodes []
  end.

(** The editor: the store, and the tree view's root, selection and
    snapshot pointers ([g.Tree.GetRoot()], [g.Tree.GetCurrentNode()],
    [g.Tree.OriginRoot]). *)
Record Gui : Type := mkGui {
  mem : store;
  root : ptr;
  currentNode : ptr;
  OriginRoot : ptr
}.

(** [g.Tree.SetCurrentNode(node)] of tview: the selection moves. *)
Definition SetCurrentNode (node : ptr) (g : Gui) : Gui :=
  mkGui (mem g) (root g) node (OriginRoot g).

(** The changed-callback that [Search] installs on its input field. *)
Definition Search (fuel : nat) (text : string) (g : Gui) : Res Gui :=
  root0 ← deref (mem g) (OriginRoot g);
  let '(r, h) := new (mem g) root0 in
  let g1 := mkGui h r (currentNode g) (OriginRoot g) in
  if negb (String.eqb text "") then
    let root1 := root g1 in
    c ← deref h root1;
    ns ← walk fuel h (n_children c) text;
    h' ← SetChildren h root1 ns;
    Ok (mkGui h' (root g1) (currentNode g1) (OriginRoot g1))
  else Ok g1.

(** ** Decoding and grafting (gui.go, UnMarshalJSON, AddNode, AddValue, LoadJSON) *)

(** The errors that the callbacks return: [ErrEmptyJSON] of gui.go, the
    error of the JSON decoder, and an error of the file system. *)
Inductive error : Type :=
| ErrEmptyJSON
| DecodeError (msg : string)
| IOError (msg : string).

(** [json.Unmarshal] into an [interface{}]: the decoded value, or the
    message of the decoder's error. *)
Variable json_Unmarshal : string -> JSON + string.

(** An [io.Reader], by what [ioutil.ReadAll] gets out of it. *)
Definition Reader : Type := (string + string)%type.
Definition NewBufferString (s : string) : Reader := inl s.

Definition UnMarshalJSON (rd : Reader) : JSON + error :=
  match rd with
  | inr err => inr (IOError err)
  | inl b =>
      if (String.length b =? 0)%nat then inr ErrEmptyJSON
      else match json_Unmarshal b with
           | inr err => inr (DecodeError err)
           | inl i => inl i
           end
  end.

(** The text and the reference that [NewRootTreeNode] gives to the
    wrapper node of a fragment: the spec leaves them open. *)
Variable rootLabel : JSON -> string * Reference.

(** Modelled from the spec: [NewRootTreeNode], which is not part of
    gui.go, makes the one wrapper node of a fragment ([buildAsNewRoot] of
    section 4.3, before its children are set). *)
Definition NewRootTreeNode (i : JSON) (h : store) : ptr * store :=
  let '(text, ref) := rootLabel i in new h (mkTreeNode text ref []).

(** The done-callback of the form that [AddNode] opens. *)
Definition AddNode (j : string) (g : Gui) : Res (option error * Gui) :=
  if String.eqb j "" then Ok (Some ErrEmptyJSON, g)
  else
    match UnMarshalJSON (NewBufferString j) with
    | inr err => Ok (Some err, g)
    | inl i =>
        let '(newNode, h1) := NewRootTreeNode i (mem g) in
        let '(ns, h2) := Tree_AddNode i h1 in
        h3 ← SetChildren h2 newNode ns;
        h4 ← AddChild h3 (currentNode g) newNode;
        Ok (None, mkGui h4 (root g) (currentNode g) (root g))
    end.

(** The done-callback of the form that [AddValue] opens. *)
Definition AddValue (j : string) (g : Gui) : Res (option error * Gui) :=
  if String.eqb j "" then Ok (Some ErrEmptyJSON, g)
  else
    match UnMarshalJSON (NewBufferString j) with
    | inr err => Ok (Some err, g)
    | inl i =>
        let current := currentNode g in
        let '(ns, h1) := Tree_AddNode i (mem g) in
        h2 ← (fix range (ns : list ptr) (h : store) : Res store :=
                match ns with
                | [] => Ok h
                | n :: ns' => h' ← AddChild h current n; range ns' h'
                end) ns h1;
        Ok (None, mkGui h2 (root g) (currentNode g) (root g))
    end.

(** Modelled from the spec: [Tree.UpdateView], which is not part of
    gui.go, replaces the whole tree by the one built from the loaded value,
    selects its root and retains a copy of the root node as the
    snapshot. *)
Definition UpdateView (i : JSON) (g : Gui) : Gui :=
  let t := build i in
  let '(ps, h1) := allocs (GetChildren t) (mem g) in
  let c := mkTreeNode (GetText t) (GetReference t) ps in
  let '(r, h2) := new h1 c in
  let '(o, h3) := new h2 c in
  mkGui h3 r r o.

(** The done-callback of the form that [LoadJSON] opens; [file] is what
    [os.Open] returned for the file name. *)
Definition LoadJSON (file : Reader + string) (g : Gui) : Res (option error * Gui) :=
  match file with
  | inr err => Ok (Some (IOError err), g)
  | inl f =>
      match UnMarshalJSON f with
      | inr err => Ok (Some err, g)
      | inl i => Ok (None, UpdateView i g)
      end
  end.

(** The invariant of the spec's data model that the serializer relies on:
    every [Key] node below (and including) [node] has exactly one child. *)
Fixpoint key_invariant (node : tree) : bool :=
  match node with
  | Node _ ref children =>
      (if decide (refJSONType ref = Key) then (length children =? 1)%nat else true)
      && forallb key_invariant children
  end.

(** What the serializer needs of the [Key] nodes: every [Key] node below
    (and including) [node] has at least one child. *)
Fixpoint keys_have_child (node : tree) : bool :=
  match node with
  | Node _ ref children =>
      (if decide (refJSONType ref = Key) then negb (length children =? 0)%nat else true)
      && forallb keys_have_child children
  end.

(** The two loops of [makeJSON], named. *)
Fixpoint objectRange (ns : list tree) (i : list (string * GoValue)) : Res GoValue :=
  match ns with
  | [] => Ok (GMap i)
  | n :: ns' => x ← makeJSON n; objectRange ns' (map_set i (GetText n) x)
  end.

Fixpoint arrayRange (ns : list tree) (i : option (list GoValue)) : Res GoValue :=
  match ns with
  | [] => Ok (GSlice i)
  | n :: ns' => x ← makeJSON n; arrayRange ns' (append i x)
  end.

(** The shapes of JSON values that the round trip is stated on.
    [everywhere P v] holds when [P] holds of [v] and of every value inside
    it. *)
Fixpoint everywhere (P : JSON -> bool) (v : JSON) : bool :=
  P v &&
  match v with
  | JArray l => forallb (everywhere P) l
  | JObject o => forallb (fun kv => let '(_, x) := kv in everywhere P x) o
  | _ => true
  end.

Definition is_scalar (v : JSON) : bool :=
  match v with
  | JArray _ | JObject _ => false
  | _ => true
  end.

(** No property of the object holds an object or an array. *)
Definition flat_object (v : JSON) : bool :=
  match v with
  | JObject o => forallb (fun kv => is_scalar (snd kv)) o
  | _ => true
  end.

Definition nonempty_array (v : JSON) : bool :=
  match v with
  | JArray [] => false
  | _ => true
  end.

(** An integral number is in the range of Go's [int]. *)
Definition int_fits (v : JSON) : bool :=
  match v with
  | JNumber (NInt z) => (strconv.minInt <=? z) && (z <=? strconv.maxInt)
  | _ => true
  end.

Fixpoint distinct (ks : list string) : bool :=
  match ks with
  | [] => true
  | k :: ks' => negb (existsb (String.eqb k) ks') && distinct ks'
  end.

(** The keys of an object are pairwise different, as those of a decoded
    Go map are. *)
Definition distinct_keys (v : JSON) : bool :=
  match v with
  | JObject o => distinct (List.map fst o)
  | _ => true
  end.

Fixpoint increasing (ks : list string) : bool :=
  match ks with
  | [] => true
  | k :: ks' => forallb (String.ltb k) ks' && increasing ks'
  end.

(** The keys of an object are written in increasing order. *)
Definition increasing_keys (v : JSON) : bool :=
  match v with
  | JObject o => increasing (List.map fst o)
  | _ => true
  end.

(** The properties of an object, as the Go map assigned from them in
    turn holds them. *)
Definition as_map (o : list (string * JSON)) : list (string * JSON) :=
  fold_left (fun m kv => map_set m (fst kv) (snd kv)) o [].

(** Deep equality of JSON values up to the order in which the properties
    of an object are written. *)
Inductive deep_equal : JSON -> JSON -> Prop :=
| deep_equal_scalar v :
    is_scalar v = true -> deep_equal v v
| deep_equal_array l l' :
    Forall2 deep_equal l l' -> deep_equal (JArray l) (JArray l')
| deep_equal_object o o' o'' :
    Forall2 (fun a b => fst a = fst b /\ deep_equal (snd a) (snd b)) o o' ->
    Permutation o' o'' ->
    deep_equal (JObject o) (JObject o'').

(** The loop of [walk], named. *)
Definition walkRange (fuel' : nat) (h : store) (text : string)
  : list ptr -> list ptr -> Res (list ptr) :=
  fix range (ns : list ptr) (newNodes : list ptr) : Res (list ptr) :=
    match ns with
    | [] => Ok newNodes
    | child :: ns' =>
        c ← deref h child;
        if matches (n_text c) text then range ns' (newNodes ++ [child])
        else r ← walk fuel' h (n_children c) text; range ns' (newNodes ++ r)
    end.

(** The filter as the spec words it, on trees: a node whose lowered label
    contains the query stands for itself, whole; any other node is replaced
    by what the filter finds among its children. *)
Fixpoint filter_node (query : string) (t : tree) : list tree :=
  match t with
  | Node text _ children =>
      if matches text query then [t]
      else flat_map (filter_node query) children
  end.

Definition filter_forest (query : string) (ts : list tree) : list tree :=
  flat_map (filter_node query) ts.

(** A sequence of filter calls, one per query typed. *)
Fixpoint filters (fuel : nat) (queries : list string) (g : Gui) : Res Gui :=
  match queries with
  | [] => Ok g
  | q :: queries' => g' ← Search fuel q g; filters fuel queries' g'
  end.

(** Every node of [h] is a node of [h'], with the same text, reference
    and children. *)
Definition extends (h h' : store) : Prop :=
  forall p c, h !! p = Some c -> h' !! p = Some c.

Fixpoint height (t : tree) : nat :=
  match t with
  | Node _ _ children => S (list_max (List.map height children))
  end.

(** The loop of [AddValue], named. *)
Definition addRange (current : ptr) : list ptr -> store -> Res store :=
  fix range (ns : list ptr) (h : store) : Res store :=
    match ns with
    | [] => Ok h
    | n :: ns' => h' ← AddChild h current n; range ns' h'
    end.

(** The children that the tree view shows under its root. *)
Definition displayed (g : Gui) : option (list ptr) :=
  c ← mem g !! root g; Some (n_children c).

(** [substr] occurs in [s]. *)
Definition contains (s substr : string) : Prop :=
  exists a b, s = String.append a (String.append substr b).

(** What allocation promises for one tree: the store grows at its end, the
    new pointer is one of the new nodes, and it denotes the tree whatever
    happens to the nodes that were there before. *)
Definition alloc_ok (t : tree) : Prop :=
  forall h, exists d,
    snd (alloc t h) = h ++ d
    /\ (length h <= fst (alloc t h))%nat
    /\ forall h0, length h0 = length h ->
         tree_of (height t) (h0 ++ d) (fst (alloc t h)) = Some t.

(** ** The serializer on the store, and what [SaveJSON] serializes *)

(** [m[k]] of a Go map: the value bound to [k], if any. *)
Fixpoint map_get {V : Type} (m : list (string * V)) (k : string) : option V :=
  match m with
  | [] => None
  | (k', v) :: m' => if String.eqb k k' then Some v else map_get m' k
  end.

(** [makeJSON] (gui.go) on a node of the store: the same branches, reading
    the text, the reference and the children through the pointer.  It
    follows exactly the pointers that the code follows: the children of an
    [Object] or [Array] node and child 0 of a [Key] node. *)
Fixpoint makeJSON_at (fuel : nat) (h : store) (node : ptr) : Res GoValue :=
  match fuel with
  | O => OutOfFuel
  | S fuel' =>
      c ← deref h node;
      let ref := n_reference c in
      let children := n_children c in
      match refJSONType ref with
      | Object =>
          (fix range (ns : list ptr) (i : list (string * GoValue)) : Res GoValue :=
             match ns with
             | [] => Ok (GMap i)
             | n :: ns' =>
                 cn ← deref h n;
                 x ← makeJSON_at fuel' h n;
                 range ns' (map_set i (n_text cn) x)
             end) children []
      | Array =>
          (fix range (ns : list ptr) (i : option (list GoValue)) : Res GoValue :=
             match ns with
             | [] => Ok (GSlice i)
             | n :: ns' => x ← makeJSON_at fuel' h n; range ns' (append i x)
             end) children None
      | Key =>
          match children with
          | [] => Panic
          | v :: _ =>
              cv ← deref h v;
              if decide (refJSONType (n_reference cv) = Value)
              then Ok (parseValue (Node (n_text cv) (n_reference cv) []))
              else x ← makeJSON_at fuel' h v; Ok (GMap [(n_text c, x)])
          end
      | Value => Ok (parseValue (Node (n_text c) (n_reference c) []))
      end
  end.

(** The two loops of [makeJSON_at], named. *)
Definition objectRange_at (fuel' : nat) (h : store)
  : list ptr -> list (string * GoValue) -> Res GoValue :=
  fix range (ns : list ptr) (i : list (string * GoValue)) : Res GoValue :=
    match ns with
    | [] => Ok (GMap i)
    | n :: ns' =>
        cn ← deref h n;
        x ← makeJSON_at fuel' h n;
        range ns' (map_set i (n_text cn) x)
    end.

Definition arrayRange_at (fuel' : nat) (h : store)
  : list ptr -> option (list GoValue) -> Res GoValue :=
  fix range (ns : list ptr) (i : option (list GoValue)) : Res GoValue :=
    match ns with
    | [] => Ok (GSlice i)
    | n :: ns' => x ← makeJSON_at fuel' h n; range ns' (append i x)
    end.

(** The value that [SaveJSON] (gui.go) hands to the encoder:
    [g.makeJSON(g.Tree.GetRoot())].  Encoding it and writing the file are
    left to the libraries. *)
Definition SaveJSON_value (fuel : nat) (g : Gui) : Res GoValue :=
  makeJSON_at fuel (mem g) (root g).

(** Two trees that differ only where [makeJSON] does not look: below a
    [Value] node, and after child 0 of a [Key] node. *)
Inductive same_for_save : tree -> tree -> Prop :=
| same_Value text ref children children' :
    refJSONType ref = Value ->
    same_for_save (Node text ref children) (Node text ref children')
| same_Key_nil text ref :
    refJSONType ref = Key ->
    same_for_save (Node text ref []) (Node text ref [])
| same_Key text ref v v' rest rest' :
    refJSONType ref = Key ->
    same_for_save v v' ->
    same_for_save (Node text ref (v :: rest)) (Node text ref (v' :: rest'))
| same_composite text ref children children' :
    refJSONType ref = Object \/ refJSONType ref = Array ->
    Forall2 same_for_save children children' ->
    same_for_save (Node text ref children) (Node text ref children').

(** Some node of the tree has a label that matches the query. *)
Fixpoint any_match (query : string) (t : tree) : bool :=
  match t with
  | Node text _ children => matches text query || existsb (any_match query) children
  end.

(** The value bound last to [k] in a sequence of assignments. *)
Definition last_bound {V : Type} (kvs : list (string * V)) (k : string) : option V :=
  snd <$> List.find (fun kv => String.eqb k (fst kv)) (rev kvs).

(** The store [h'] has every node of [h], with its text and reference,
    and with its children where [makeJSON] looks at them: the children of
    a [Value] node, and those of a [Key] node after child 0, may differ. *)
Definition same_store_for_save (h h' : store) : Prop :=
  forall p c, h !! p = Some c ->
    exists c', h' !! p = Some c'
      /\ n_text c' = n_text c /\ n_reference c' = n_reference c
      /\ (n_children c' = n_children c
          \/ refJSONType (n_reference c) = Value
          \/ (refJSONType (n_reference c) = Key
              /\ exists v rest rest',
                   n_children c = v :: rest /\ n_children c' = v :: rest')).

(** Some [Key] node that [makeJSON] comes to has no child.  [makeJSON]
    goes from an [Object] or [Array] node to every child, and from a [Key]
    node to child 0 when that is not a [Value] node. *)
Fixpoint reaches_empty_Key (node : tree) : bool :=
  match node with
  | Node _ ref children =>
      match refJSONType ref with
      | Object | Array => existsb reaches_empty_Key children
      | Key =>
          match children with
          | [] => true
          | v :: _ =>
              if decide (refJSONType (GetReference v) = Value) then false
              else reaches_empty_Key v
          end
      | Value => false
      end
  end.

(** The byte is one of 'A'..'Z'; the text has such a byte. *)
Definition is_upper (c : ascii) : bool :=
  let n := N_of_ascii c in ((65 <=? n) && (n <=? 90))%N.

Fixpoint has_upper (s : string) : bool :=
  match s with
  | EmptyString => false
  | String.String c s' => is_upper c || has_upper s'
  end.

(** The text starts with a minus sign. *)
Definition negative_sign (s : string) : bool :=
  match s with
  | String.String c _ => Ascii.eqb c "-"
  | EmptyString => false
  end.

(** * Properties *)

(** ** Induction on trees *)

Lemma tree_rect' (P : tree -> Prop) :
  (forall text ref children, Forall P children -> P (Node text ref children)) ->
  forall n, P n.
Proof.
  intros step.
  fix IH 1.
  intros [text ref children]. apply step.
  induction children as [|c cs IHcs]; constructor; [apply IH | exact IHcs].
Qed.

Lemma makeJSON_Object text ref children :
  refJSONType ref = Object ->
  makeJSON (Node text ref children) = objectRange children [].
Proof. intros H. simpl. rewrite H. reflexivity. Qed.

Lemma makeJSON_Array text ref children :
  refJSONType ref = Array ->
  makeJSON (Node text ref children) = arrayRange children None.
Proof. intros H. simpl. rewrite H. reflexivity. Qed.

Lemma makeJSON_Value text ref children :
  refJSONType ref = Value ->
  makeJSON (Node text ref children) = Ok (parseValue (Node text ref children)).
Proof. intros H. simpl. rewrite H. reflexivity. Qed.

Lemma makeJSON_Key_leaf text ref v rest :
  refJSONType ref = Key ->
  refJSONType (GetReference v) = Value ->
  makeJSON (Node text ref (v :: rest)) = Ok (parseValue v).
Proof.
  intros H Hv. simpl. rewrite H.
  destruct (decide _) as [_|n]; [reflexivity | contradiction].
Qed.

(** What the [Key] branch does with a child that is not a leaf: the
    child's value comes back inside a fresh one-entry map under the key's
    own text. *)
Lemma makeJSON_Key_composite text ref v rest :
  refJSONType ref = Key ->
  refJSONType (GetReference v) <> Value ->
  makeJSON (Node text ref (v :: rest)) = x ← makeJSON v; Ok (GMap [(text, x)]).
Proof.
  intros H Hv. simpl. rewrite H.
  destruct (decide _) as [e|_]; [contradiction | reflexivity].
Qed.

Lemma objectRange_total ns :
  Forall (fun n => exists v, makeJSON n = Ok v) ns ->
  forall i, exists v, objectRange ns i = Ok v.
Proof.
  induction 1 as [|n ns [x Hx] _ IH]; intros i; simpl.
  - eauto.
  - rewrite Hx. simpl. apply IH.
Qed.

Lemma arrayRange_total ns :
  Forall (fun n => exists v, makeJSON n = Ok v) ns ->
  forall i, exists v, arrayRange ns i = Ok v.
Proof.
  induction 1 as [|n ns [x Hx] _ IH]; intros i; simpl.
  - eauto.
  - rewrite Hx. simpl. apply IH.
Qed.

Lemma makeJSON_total node :
  key_invariant node = true -> exists v, makeJSON node = Ok v.
Proof.
  induction node as [text ref children IH] using tree_rect'.
  intros Hinv. simpl in Hinv. apply andb_true_iff in Hinv as [Hkey Hall].
  assert (Hsub : Forall (fun n => exists v, makeJSON n = Ok v) children).
  { rewrite forallb_forall in Hall. rewrite List.Forall_forall in IH |- *.
    intros n Hn. apply IH; auto. }
  destruct (refJSONType ref) eqn:Hty.
  - rewrite makeJSON_Object by assumption. apply objectRange_total, Hsub.
  - rewrite makeJSON_Array by assumption. apply arrayRange_total, Hsub.
  - destruct (decide (Key = Key)) as [_|ne]; [|contradiction].
    destruct children as [|v rest]; [discriminate|].
    destruct (decide (refJSONType (GetReference v) = Value)) as [Hv|Hv].
    + rewrite makeJSON_Key_leaf by assumption. eauto.
    + rewrite makeJSON_Key_composite by assumption.
      inversion Hsub as [|? ? [x Hx] _]; subst. rewrite Hx. simpl. eauto.
  - rewrite makeJSON_Value by assumption. eauto.
Qed.

(** C1 (the code departs from the claim).  The key [a] holds the object
    [{"b": 1}].  The claim asks for that object itself; [makeJSON] returns
    it wrapped once more under [a]. *)
Theorem makeJSON_Key_rewraps :
  let sub := Node "" (mkReference Object String)
               [Node "b" (mkReference Key String) [Node "1" (mkReference Value Int) []]] in
  let key := Node "a" (mkReference Key String) [sub] in
  makeJSON sub = Ok (GMap [("b", GInt 1)])
  /\ makeJSON key = Ok (GMap [("a", GMap [("b", GInt 1)])])
  /\ makeJSON key <> makeJSON sub.
Proof. repeat split. discriminate. Qed.

(** C9.  An [Array] node without children serializes to the nil slice,
    which the encoder writes as [null]; so the tree built from the empty
    array comes back as [null], not as [[]]. *)
Theorem makeJSON_empty_Array :
  (forall text vt,
      makeJSON (Node text (mkReference Array vt) []) = Ok (GSlice None))
  /\ encode (GSlice None) = JNull
  /\ encode <$> makeJSON (build (JArray [])) = Ok JNull
  /\ JNull <> JArray [].
Proof. repeat split. discriminate. Qed.

Lemma makeJSON_total_keys_have_child node :
  keys_have_child node = true -> exists v, makeJSON node = Ok v.
Proof.
  induction node as [text ref children IH] using tree_rect'.
  intros Hinv. simpl in Hinv. apply andb_true_iff in Hinv as [Hkey Hall].
  assert (Hsub : Forall (fun n => exists v, makeJSON n = Ok v) children).
  { rewrite forallb_forall in Hall. rewrite List.Forall_forall in IH |- *.
    intros n Hn. apply IH; auto. }
  destruct (refJSONType ref) eqn:Hty.
  - rewrite makeJSON_Object by assumption. apply objectRange_total, Hsub.
  - rewrite makeJSON_Array by assumption. apply arrayRange_total, Hsub.
  - destruct (decide (Key = Key)) as [_|ne]; [|contradiction].
    destruct children as [|v rest]; [discriminate|].
    destruct (decide (refJSONType (GetReference v) = Value)) as [Hv|Hv].
    + rewrite makeJSON_Key_leaf by assumption. eauto.
    + rewrite makeJSON_Key_composite by assumption.
      inversion Hsub as [|? ? [x Hx] _]; subst. rewrite Hx. simpl. eauto.
  - rewrite makeJSON_Value by assumption. eauto.
Qed.

Lemma key_invariant_keys_have_child node :
  key_invariant node = true -> keys_have_child node = true.
Proof.
  induction node as [text ref children IH] using tree_rect'.
  simpl. intros H. apply andb_true_iff in H as [Hkey Hall].
  apply andb_true_iff. split.
  - destruct (decide _); [|reflexivity].
    destruct children as [|v rest]; [discriminate | reflexivity].
  - apply forallb_forall. intros n Hn. rewrite forallb_forall in Hall.
    rewrite List.Forall_forall in IH. apply IH; auto.
Qed.

(** C10 (amended).  A [Key] node without children makes the serializer
    fault: its [Key] branch takes child 0 unconditionally.  The serializer
    returns a value on every tree in which every [Key] node has at least
    one child; the invariant that every [Key] node has exactly one child
    is a special case, so under it the fault cannot happen; and a fault
    tells that some [Key] node has no child.  More than one child under a
    [Key] node does no harm: only child 0 is read, and the node serializes
    as it does with child 0 alone. *)
Theorem makeJSON_defined_under_key_invariant :
  (forall text vt, makeJSON (Node text (mkReference Key vt) []) = Panic)
  /\ (forall node, keys_have_child node = true -> exists v, makeJSON node = Ok v)
  /\ (forall node, key_invariant node = true -> keys_have_child node = true)
  /\ (forall node, key_invariant node = true -> exists v, makeJSON node = Ok v)
  /\ (forall node, makeJSON node = Panic -> keys_have_child node = false)
  /\ (forall text vt v rest,
        makeJSON (Node text (mkReference Key vt) (v :: rest))
        = makeJSON (Node text (mkReference Key vt) [v])).
Proof.
  split; [reflexivity|]. split; [apply makeJSON_total_keys_have_child|].
  split; [apply key_invariant_keys_have_child|]. split; [|split].
  - intros node H.
    apply makeJSON_total_keys_have_child, key_invariant_keys_have_child, H.
  - intros node Hp. destruct (keys_have_child node) eqn:Hinv; [|reflexivity].
    destruct (makeJSON_total_keys_have_child node Hinv) as [v Hv]. congruence.
  - intros text vt v rest. reflexivity.
Qed.

(** ** The scalar parser *)

Lemma digit_range c d : strconv.digit c = Some d -> 0 <= d <= 9.
Proof.
  unfold strconv.digit. destruct (_ && _) eqn:H; [|discriminate].
  intros [= <-]. apply andb_true_iff in H as [H1 H2]. lia.
Qed.

Lemma digit_not_sign c d :
  strconv.digit c = Some d -> Ascii.eqb c "-" = false /\ Ascii.eqb c "+" = false.
Proof.
  intros H. split.
  - destruct (Ascii.eqb_spec c "-") as [->|]; [discriminate | reflexivity].
  - destruct (Ascii.eqb_spec c "+") as [->|]; [discriminate | reflexivity].
Qed.

(** What [digits] returns lies between the number it started from and
    that number with as many nines behind it as there are bytes. *)
Lemma digits_bound s : forall a m,
  0 <= a -> strconv.digits s a = Some m ->
  a <= m /\ m + 1 <= (a + 1) * 10 ^ Z.of_nat (String.length s).
Proof.
  induction s as [|c s IH]; intros a m Ha; simpl strconv.digits.
  - intros [= <-]. simpl. lia.
  - destruct (strconv.digit c) as [d|] eqn:Hd; [|discriminate].
    apply digit_range in Hd. intros H. apply IH in H; [|lia].
    cbn [String.length]. rewrite Nat2Z.inj_succ, Z.pow_succ_r by lia.
    nia.
Qed.

(** On digits only, [ParseUint] returns the number that [digits] returns,
    unless that is beyond [uint64]. *)
Lemma ParseUint_loop_digits s : forall a m,
  0 <= a <= strconv.maxUint64 -> strconv.digits s a = Some m ->
  strconv.ParseUint_loop s a
  = if m <=? strconv.maxUint64 then (m, None)
    else (strconv.maxUint64, Some strconv.ErrRange).
Proof.
  induction s as [|c s IH]; intros a m Ha; simpl; unfold strconv.maxUint64 in *.
  - intros [= <-]. destruct (Z.leb_spec a (2 ^ 64 - 1)); [reflexivity | lia].
  - destruct (strconv.digit c) as [d|] eqn:Hd; [|discriminate].
    apply digit_range in Hd. intros H.
    pose proof (digits_bound s (a * 10 + d) m ltac:(lia) H) as [Hm _].
    change ((2 ^ 64 - 1) / 10 + 1) with 1844674407370955162.
    destruct (Z.leb_spec 1844674407370955162 a) as [Hcut|Hcut].
    + destruct (Z.leb_spec m (2 ^ 64 - 1)); [lia | reflexivity].
    + rewrite (Z.mod_small (a * 10)) by lia.
      destruct (Z.le_gt_cases (a * 10 + d) (2 ^ 64 - 1)) as [Hfit|Hover].
      * rewrite Z.mod_small by lia.
        destruct (Z.ltb_spec (a * 10 + d) (a * 10)); [lia|].
        destruct (Z.ltb_spec (2 ^ 64 - 1) (a * 10 + d)); [lia|]. simpl.
        apply IH; [lia | exact H].
      * assert (Hwrap : (a * 10 + d) mod 2 ^ 64 = a * 10 + d - 2 ^ 64).
        { symmetry. apply Z.mod_unique with (q := 1); lia. }
        rewrite Hwrap.
        destruct (Z.ltb_spec (a * 10 + d - 2 ^ 64) (a * 10)); [|lia]. simpl.
        destruct (Z.leb_spec m (2 ^ 64 - 1)); [lia | reflexivity].
Qed.

(** Whatever the text, [ParseUint] ends in one of three ways. *)
Lemma ParseUint_loop_cases s : forall a,
  0 <= a <= strconv.maxUint64 ->
  (exists n, 0 <= n <= strconv.maxUint64 /\ strconv.ParseUint_loop s a = (n, None))
  \/ strconv.ParseUint_loop s a = (0, Some strconv.ErrSyntax)
  \/ strconv.ParseUint_loop s a = (strconv.maxUint64, Some strconv.ErrRange).
Proof.
  induction s as [|c s IH]; intros a Ha; simpl; unfold strconv.maxUint64 in *.
  - left. exists a. split; [exact Ha | reflexivity].
  - destruct (strconv.digit c) as [d|] eqn:Hd; [|right; left; reflexivity].
    apply digit_range in Hd.
    destruct (_ <=? a); [right; right; reflexivity|].
    destruct (_ || _) eqn:Hover; [right; right; reflexivity|].
    apply orb_false_iff in Hover as [_ Hmax]. apply Z.ltb_ge in Hmax.
    apply IH. split; [apply Z.mod_pos_bound; lia | exact Hmax].
Qed.

Lemma ParseUint_cases s :
  (exists n, 0 <= n <= strconv.maxUint64 /\ strconv.ParseUint s = (n, None))
  \/ strconv.ParseUint s = (0, Some strconv.ErrSyntax)
  \/ strconv.ParseUint s = (strconv.maxUint64, Some strconv.ErrRange).
Proof.
  destruct s as [|c s]; [right; left; reflexivity|].
  apply ParseUint_loop_cases. unfold strconv.maxUint64. lia.
Qed.

(** The value that comes with an error of [Atoi]: 0 with a syntax error;
    with a range error the smallest [int] when the text starts with a minus
    sign, and the largest [int] when it does not. *)
Lemma Atoi_error s e :
  snd (strconv.Atoi s) = Some e ->
  match e with
  | strconv.ErrSyntax => fst (strconv.Atoi s) = 0
  | strconv.ErrRange =>
      fst (strconv.Atoi s)
      = if negative_sign s then strconv.minInt else strconv.maxInt
  end.
Proof.
  unfold strconv.Atoi. destruct (_ && _)%nat.
  - destruct s as [|c r]; [intros [= <-]; reflexivity|].
    cbv zeta. destruct (_ && _)%nat; [intros [= <-]; reflexivity|].
    destruct (strconv.digits _ 0); [discriminate | intros [= <-]; reflexivity].
  - unfold strconv.ParseInt. destruct s as [|c r]; [intros [= <-]; reflexivity|].
    cbn [negative_sign].
    destruct (Ascii.eqb_spec c "+") as [->|Hplus]; [|destruct (Ascii.eqb c "-")].
    + destruct (ParseUint_cases r) as [(n & Hn & ->) | [-> | ->]]; cbv zeta;
        cbn [negb andb];
        try (intros [= <-]; reflexivity);
        destruct (_ <=? _); cbn [fst snd]; intros [= <-]; reflexivity.
    + destruct (ParseUint_cases r) as [(n & Hn & ->) | [-> | ->]]; cbv zeta;
        cbn [negb andb];
        try (intros [= <-]; reflexivity);
        destruct (_ <? _); cbn [fst snd]; intros [= <-]; reflexivity.
    + destruct (ParseUint_cases (String.String c r)) as [(n & Hn & ->) | [-> | ->]];
        cbv zeta; cbn [negb andb];
        try (intros [= <-]; reflexivity);
        destruct (_ <=? _); cbn [fst snd]; intros [= <-]; reflexivity.
Qed.

Lemma digits_nonempty_head body n :
  body <> "" -> strconv.digits body 0 = Some n ->
  exists c r d, body = String.String c r /\ strconv.digit c = Some d.
Proof.
  destruct body as [|c r]; [contradiction|]. intros _. simpl.
  destruct (strconv.digit c) as [d|] eqn:Hd; [|discriminate].
  intros _. exists c, r, d. split; [reflexivity | exact Hd].
Qed.

(** [Atoi] on a decimal integer, with and without a minus sign: the
    integer itself when it is an [int], and the nearest bound of [int]
    with a range error when it is not. *)
Lemma Atoi_decimal body n :
  body <> "" -> strconv.digits body 0 = Some n ->
  strconv.Atoi body
  = (if n <=? strconv.maxInt then (n, None)
     else (strconv.maxInt, Some strconv.ErrRange))
  /\ strconv.Atoi (String.String "-" body)
     = (if strconv.minInt <=? - n then (- n, None)
        else (strconv.minInt, Some strconv.ErrRange)).
Proof.
  intros Hne Hn.
  destruct (digits_nonempty_head body n Hne Hn) as (c & r & d & -> & Hd).
  destruct (digit_not_sign c d Hd) as [Hminus Hplus].
  pose proof (digits_bound _ 0 n ltac:(lia) Hn) as [Hpos Hbound].
  assert (Hfast : (String.length (String.String c r) < 19)%nat ->
                  n + 1 <= 10 ^ 18).
  { intros Hlen. etransitivity; [exact Hbound|]. rewrite Z.mul_1_l.
    apply Z.pow_le_mono_r; lia. }
  assert (Hslow : strconv.ParseUint (String.String c r)
                  = if n <=? strconv.maxUint64 then (n, None)
                    else (strconv.maxUint64, Some strconv.ErrRange)).
  { apply (ParseUint_loop_digits (String.String c r) 0 n); [|exact Hn].
    unfold strconv.maxUint64. lia. }
  unfold strconv.maxInt, strconv.minInt, strconv.maxUint64 in *.
  split; unfold strconv.Atoi.
  - destruct (Nat.ltb_spec (String.length (String.String c r)) 19) as [Hlen|Hlen].
    + cbn [String.length Nat.ltb Nat.leb andb]. rewrite Hminus, Hplus. cbn [orb andb].
      rewrite Hn. apply Hfast in Hlen.
      destruct (Z.leb_spec n (2 ^ 63 - 1)); [reflexivity | lia].
    + rewrite andb_false_r. unfold strconv.ParseInt. rewrite Hminus, Hplus, Hslow.
      destruct (Z.leb_spec n (2 ^ 64 - 1)); cbn [negb andb].
      * destruct (Z.leb_spec (2 ^ 63) n); destruct (Z.leb_spec n (2 ^ 63 - 1));
          try lia; reflexivity.
      * destruct (Z.leb_spec n (2 ^ 63 - 1)); [lia | reflexivity].
  - destruct (Nat.ltb_spec (String.length (String.String "-" (String.String c r))) 19)
      as [Hlen|Hlen].
    + cbn [String.length Nat.ltb Nat.leb andb orb].
      change (Ascii.eqb "-" "-") with true. cbn [orb andb]. rewrite Hn.
      assert (n + 1 <= 10 ^ 18) by (apply Hfast; cbn [String.length] in *; lia).
      destruct (Z.leb_spec (- 2 ^ 63) (- n)); [reflexivity | lia].
    + rewrite andb_false_r. unfold strconv.ParseInt.
      change (Ascii.eqb "-" "+") with false. change (Ascii.eqb "-" "-") with true.
      cbv iota. rewrite Hslow.
      destruct (Z.leb_spec n (2 ^ 64 - 1)); cbn [negb andb].
      * destruct (Z.ltb_spec (2 ^ 63) n); destruct (Z.leb_spec (- 2 ^ 63) (- n));
          try lia; reflexivity.
      * destruct (Z.leb_spec (- 2 ^ 63) (- n)); [lia | reflexivity].
Qed.

Lemma ParseBool_error s :
  snd (strconv.ParseBool s) <> None -> fst (strconv.ParseBool s) = false.
Proof.
  unfold strconv.ParseBool.
  destruct (_ || _); simpl; [congruence|].
  destruct (_ || _); simpl; reflexivity.
Qed.

(** C3 (amended).  When the text of a leaf does not parse as its recorded
    scalar type, the error is dropped and the value that came with it is
    returned, in the recorded type.  For [Int] that is 0 when [Atoi]
    reports a syntax error and, when it reports a range error, the
    smallest [int] for a text that starts with a minus sign and the
    largest [int] for any other text; so a decimal integer that is too
    large or too small for [int] gives the nearest bound.  [Atoi] reports
    the range error at the digit that overflows, without looking at what
    follows: twenty nines and a letter give the largest [int], not 0.  For
    [Boolean] it is [false], for [Float] whatever float [ParseFloat] hands
    back.  The result is never the raw text, and [parseValue], a total
    function, never faults. *)
Theorem parseValue_drops_the_error node :
  let v := GetText node in
  let ty := refValueType (GetReference node) in
  (ty = Int -> snd (strconv.Atoi v) = Some strconv.ErrSyntax ->
     parseValue node = GInt 0)
  /\ (ty = Int -> snd (strconv.Atoi v) = Some strconv.ErrRange ->
     parseValue node
     = GInt (if negative_sign v then strconv.minInt else strconv.maxInt))
  /\ (ty = Int -> forall body n,
        body <> "" -> strconv.digits body 0 = Some n ->
        (v = body -> strconv.maxInt < n ->
           snd (strconv.Atoi v) = Some strconv.ErrRange
           /\ parseValue node = GInt strconv.maxInt)
        /\ (v = String.String "-" body -> - n < strconv.minInt ->
           snd (strconv.Atoi v) = Some strconv.ErrRange
           /\ parseValue node = GInt strconv.minInt))
  /\ (ty = Boolean -> snd (strconv.ParseBool v) <> None ->
     parseValue node = GBool false)
  /\ (ty = Float -> parseValue node = GFloat (fst (ParseFloat v)))
  /\ (ty = Int \/ ty = Float \/ ty = Boolean -> parseValue node <> GString v)
  /\ strconv.Atoi "99999999999999999999x" = (strconv.maxInt, Some strconv.ErrRange)
  /\ strconv.Atoi "x99999999999999999999" = (0, Some strconv.ErrSyntax).
Proof.
  destruct node as [text ref children]. cbn zeta. simpl GetText. simpl GetReference.
  unfold parseValue. simpl GetText. simpl GetReference.
  split; [|split; [|split; [|split; [|split; [|split; [|split]]]]]].
  - intros -> H. apply Atoi_error in H. destruct (strconv.Atoi text); simpl in *.
    congruence.
  - intros -> H. apply Atoi_error in H. destruct (strconv.Atoi text); simpl in *.
    congruence.
  - intros -> body n Hne Hn. destruct (Atoi_decimal body n Hne Hn) as [Hpos Hneg].
    split.
    + intros -> Hbig. rewrite Hpos.
      destruct (Z.leb_spec n strconv.maxInt); [lia|]. split; reflexivity.
    + intros -> Hsmall. rewrite Hneg.
      destruct (Z.leb_spec strconv.minInt (- n)); [lia|]. split; reflexivity.
  - intros -> H. apply ParseBool_error in H.
    destruct (strconv.ParseBool text); simpl in *. congruence.
  - intros ->. destruct (ParseFloat text); reflexivity.
  - intros [-> | [-> | ->]].
    + destruct (strconv.Atoi text); discriminate.
    + destruct (ParseFloat text); discriminate.
    + destruct (strconv.ParseBool text); discriminate.
  - vm_compute. reflexivity.
  - vm_compute. reflexivity.
Qed.

(** ** The match test of the filter *)

Lemma HasPrefix_spec s p :
  strings.HasPrefix s p = true <-> exists r, s = String.append p r.
Proof.
  revert s. induction p as [|a p IH]; intros s; simpl.
  - split; [intros _; exists s; reflexivity | destruct s; reflexivity].
  - destruct s as [|b s].
    + split; [discriminate | intros [r Hr]; discriminate].
    + simpl. destruct (Ascii.eqb_spec a b) as [->|ne].
      * specialize (IH s). split.
        -- intros H. apply IH in H as [r Hr]. exists r. simpl. congruence.
        -- intros [r Hr]. apply IH. exists r. simpl in Hr. congruence.
      * split; [discriminate | intros [r Hr]; simpl in Hr; congruence].
Qed.

Lemma index_from_unfold i s substr :
  strings.index_from i s substr =
  if strings.HasPrefix s substr then i
  else match s with
       | EmptyString => -1
       | String.String _ s' => strings.index_from (i + 1) s' substr
       end.
Proof. destruct s; reflexivity. Qed.

Lemma index_from_spec s substr i :
  0 <= i -> (strings.index_from i s substr <> -1 <-> contains s substr).
Proof.
  revert i. induction s as [|c s IH]; intros i Hi; rewrite index_from_unfold.
  - destruct (strings.HasPrefix "" substr) eqn:Hp.
    + split; [intros _ | lia].
      apply HasPrefix_spec in Hp as [r Hr]. exists "", r. exact Hr.
    + split; [congruence|]. intros (a & b & Hab).
      destruct a; [|discriminate]. simpl in Hab.
      assert (strings.HasPrefix "" substr = true) by (apply HasPrefix_spec; eauto).
      congruence.
  - destruct (strings.HasPrefix (String.String c s) substr) eqn:Hp.
    + split; [intros _ | lia].
      apply HasPrefix_spec in Hp as [r Hr]. exists "", r. exact Hr.
    + rewrite IH by lia. split; intros (a & b & Hab).
      * exists (String.String c a), b. simpl. congruence.
      * destruct a as [|c' a]; simpl in Hab.
        -- assert (strings.HasPrefix (String.String c s) substr = true)
             by (apply HasPrefix_spec; eauto).
           congruence.
        -- exists a, b. congruence.
Qed.

(** What the test of [walk] decides: the query, as typed, occurs in the
    lowered label. *)
Lemma matches_spec label text :
  matches label text = true <-> contains (strings.ToLower Map_ToLower label) text.
Proof.
  unfold matches, strings.Index.
  rewrite <- (index_from_spec _ _ 0) by lia.
  rewrite negb_true_iff, Z.eqb_neq. reflexivity.
Qed.

(** C4 (the code departs from the claim).  The label is lowered, the
    query is not, neither by [walk] nor by [Search], which passes on the
    text as typed: [Alpha] is not found in the label [alpha], although the
    two are equal once both are lowered, and the filter shows nothing. *)
Theorem matches_leaves_query_case :
  let h := [mkTreeNode "alpha" (mkReference Key String) [];
            mkTreeNode "" (mkReference Object String) [0%nat]] in
  let g := mkGui h 1 1 1 in
  strings.ToLower Map_ToLower "Alpha" = strings.ToLower Map_ToLower "alpha"
  /\ matches "alpha" "Alpha" = false
  /\ matches "alpha" (strings.ToLower Map_ToLower "Alpha") = true
  /\ walk 2 h [0%nat] "Alpha" = Ok []
  /\ walk 2 h [0%nat] "alpha" = Ok [0%nat]
  /\ displayed <$> Search 2 "Alpha" g = Ok (Some [])
  /\ displayed <$> Search 2 "alpha" g = Ok (Some [0%nat]).
Proof. intros h g. repeat split; vm_compute; reflexivity. Qed.

(** ** Decimal rendering and [Atoi] *)

Lemma digit_digit_char d :
  0 <= d <= 9 -> strconv.digit (strconv.digit_char d) = Some d.
Proof.
  intros H.
  assert (d = 0 \/ d = 1 \/ d = 2 \/ d = 3 \/ d = 4 \/ d = 5 \/ d = 6
          \/ d = 7 \/ d = 8 \/ d = 9) as Hd by lia.
  repeat (destruct Hd as [-> | Hd]; [reflexivity|]). subst. reflexivity.
Qed.

Lemma utoa_head fuel n acc :
  exists d r, 0 <= d <= 9
    /\ strconv.utoa (S fuel) n acc = String.String (strconv.digit_char d) r.
Proof.
  revert n acc. induction fuel as [|fuel IH]; intros n acc.
  - exists (n mod 10), acc. split; [pose proof (Z.mod_pos_bound n 10); lia|].
    simpl. destruct (n <? 10); reflexivity.
  - change (strconv.utoa (S (S fuel)) n acc) with
      (let acc' := String.String (strconv.digit_char (n mod 10)) acc in
       if n <? 10 then acc' else strconv.utoa (S fuel) (n / 10) acc').
    cbv zeta. destruct (n <? 10).
    + exists (n mod 10), acc.
      split; [pose proof (Z.mod_pos_bound n 10); lia | reflexivity].
    + apply IH.
Qed.

Lemma utoa_digits fuel n :
  0 <= n < 2 ^ Z.of_nat fuel ->
  exists k, 0 <= k /\
    forall acc a, strconv.digits (strconv.utoa fuel n acc) a
                  = strconv.digits acc (a * 10 ^ k + n).
Proof.
  revert n. induction fuel as [|fuel IH]; intros n Hn.
  - exists 0. split; [lia|]. intros acc a. simpl in *.
    f_equal. lia.
  - simpl strconv.utoa. destruct (Z.ltb_spec n 10) as [Hlt|Hge].
    + exists 1. split; [lia|]. intros acc a. simpl strconv.digits.
      rewrite Z.mod_small by lia. rewrite digit_digit_char by lia.
      f_equal; lia.
    + destruct (IH (n / 10)) as (k & Hk & Hd).
      { rewrite Nat2Z.inj_succ, Z.pow_succ_r in Hn by lia. split.
        - apply Z.div_pos; lia.
        - apply Z.div_lt_upper_bound; lia. }
      exists (k + 1). split; [lia|]. intros acc a. rewrite Hd.
      simpl strconv.digits.
      rewrite digit_digit_char by (pose proof (Z.mod_pos_bound n 10); lia).
      f_equal. rewrite Z.pow_add_r by lia.
      pose proof (Z.div_mod n 10). lia.
Qed.

Lemma digits_fuel_enough n : 0 <= n -> n < 2 ^ Z.of_nat (strconv.digits_fuel n).
Proof.
  intros Hn. unfold strconv.digits_fuel.
  rewrite Nat2Z.inj_succ, Z2Nat.id by apply Z.log2_nonneg.
  destruct (Z.eq_dec n 0) as [->|Hne]; [reflexivity|].
  apply Z.log2_spec. lia.
Qed.

Lemma utoa_decimal n :
  0 <= n ->
  strconv.utoa (strconv.digits_fuel n) n "" <> ""
  /\ strconv.digits (strconv.utoa (strconv.digits_fuel n) n "") 0 = Some n.
Proof.
  intros Hn. split.
  - destruct (utoa_head (Z.to_nat (Z.log2 n)) n "") as (d & r & _ & Hu).
    unfold strconv.digits_fuel. rewrite Hu. discriminate.
  - destruct (utoa_digits (strconv.digits_fuel n) n) as (k & _ & Hk).
    { split; [lia | apply digits_fuel_enough, Hn]. }
    rewrite Hk. reflexivity.
Qed.

(** [Atoi] reads back what [Itoa] wrote, for every [int]. *)
Lemma Atoi_Itoa z :
  strconv.minInt <= z <= strconv.maxInt ->
  strconv.Atoi (strconv.Itoa z) = (z, None).
Proof.
  intros Hz. unfold strconv.Itoa.
  destruct (Z.ltb_spec z 0) as [Hneg|Hpos].
  - destruct (utoa_decimal (- z)) as [Hne Hd]; [lia|].
    rewrite (proj2 (Atoi_decimal _ _ Hne Hd)), Z.opp_involutive.
    destruct (Z.leb_spec strconv.minInt z); [reflexivity | lia].
  - destruct (utoa_decimal z) as [Hne Hd]; [lia|].
    rewrite (proj1 (Atoi_decimal _ _ Hne Hd)).
    destruct (Z.leb_spec z strconv.maxInt); [reflexivity | lia].
Qed.

(** ** Round trip through the builder and the serializer *)

Lemma JSON_rect' (P : JSON -> Prop) :
  P JNull -> (forall b, P (JBool b)) -> (forall n, P (JNumber n)) ->
  (forall s, P (JString s)) ->
  (forall l, Forall P l -> P (JArray l)) ->
  (forall o, Forall (fun kv => P (snd kv)) o -> P (JObject o)) ->
  forall v, P v.
Proof.
  intros Hnull Hbool Hnum Hstr Harr Hobj.
  fix IH 1.
  intros [|b|n|s|l|o];
    [apply Hnull | apply Hbool | apply Hnum | apply Hstr | |].
  - apply Harr. induction l as [|x l IHl]; constructor; [apply IH | exact IHl].
  - apply Hobj. induction o as [|[k x] o IHo]; constructor; [apply IH | exact IHo].
Qed.

Lemma ltb_compare_Gt a k : String.ltb a k = true -> String.compare k a = Gt.
Proof.
  unfold String.ltb. rewrite (String.compare_antisym k a).
  destruct (String.compare a k); simpl; congruence.
Qed.

Lemma map_set_last {V} (m : list (string * V)) k v :
  Forall (fun a => String.ltb (fst a) k = true) m ->
  map_set m k v = m ++ [(k, v)].
Proof.
  induction 1 as [|[k' v'] m Hk _ IH]; simpl in *; [reflexivity|].
  rewrite (ltb_compare_Gt _ _ Hk), IH. reflexivity.
Qed.

Lemma map_set_Permutation {V} (m : list (string * V)) k v :
  ~ In k (List.map fst m) -> Permutation ((k, v) :: m) (map_set m k v).
Proof.
  induction m as [|[k' v'] m IH]; simpl; intros Hk; [reflexivity|].
  destruct (String.compare k k') eqn:Hc.
  - apply String.compare_eq_iff in Hc. subst k'. contradict Hk. now left.
  - reflexivity.
  - rewrite perm_swap. apply perm_skip, IH. contradict Hk. now right.
Qed.

Lemma map_set_map {V W} (f : V -> W) (m : list (string * V)) k v :
  List.map (fun kv => let '(k, x) := kv in (k, f x)) (map_set m k v)
  = map_set (List.map (fun kv => let '(k, x) := kv in (k, f x)) m) k (f v).
Proof.
  induction m as [|[k' v'] m IH]; simpl; [reflexivity|].
  destruct (String.compare k k'); simpl; rewrite ?IH; reflexivity.
Qed.

Lemma distinct_NoDup ks : distinct ks = true -> List.NoDup ks.
Proof.
  induction ks as [|k ks IH]; simpl; intros H; constructor;
    apply andb_true_iff in H as [Hk Hks].
  - intros Hin. apply negb_true_iff in Hk.
    assert (existsb (String.eqb k) ks = true); [|congruence].
    apply existsb_exists. exists k. split; [exact Hin | apply String.eqb_refl].
  - apply IH, Hks.
Qed.

Lemma fold_map_set_Permutation (o : list (string * JSON)) : forall m,
  List.NoDup (List.map fst (m ++ o)) ->
  Permutation (m ++ o) (fold_left (fun m kv => map_set m (fst kv) (snd kv)) o m).
Proof.
  induction o as [|[k x] o IH]; intros m Hnd; simpl.
  - rewrite app_nil_r. reflexivity.
  - assert (Hk : ~ In k (List.map fst m)).
    { rewrite List.map_app in Hnd. simpl in Hnd.
      apply List.NoDup_remove_2 in Hnd. contradict Hnd.
      apply in_or_app. now left. }
    pose proof (map_set_Permutation m k x Hk) as Hp.
    rewrite <- IH.
    + rewrite <- Hp. symmetry. apply Permutation_middle.
    + eapply Permutation_NoDup; [|exact Hnd].
      rewrite !List.map_app. apply Permutation_map with (f := fst) in Hp.
      rewrite <- Hp. simpl. symmetry. apply Permutation_middle.
Qed.

Lemma as_map_Permutation o :
  distinct (List.map fst o) = true -> Permutation o (as_map o).
Proof.
  intros H. apply (fold_map_set_Permutation o []), distinct_NoDup, H.
Qed.

Lemma fold_map_set_increasing (o : list (string * JSON)) : forall m,
  increasing (List.map fst o) = true ->
  Forall (fun a => Forall (fun b => String.ltb (fst a) (fst b) = true) o) m ->
  fold_left (fun m kv => map_set m (fst kv) (snd kv)) o m = m ++ o.
Proof.
  induction o as [|[k x] o IH]; intros m Hinc Hm; simpl.
  - rewrite app_nil_r. reflexivity.
  - simpl in Hinc. apply andb_true_iff in Hinc as [Hk Hinc].
    rewrite map_set_last.
    + rewrite IH, <- app_assoc; [reflexivity | exact Hinc |].
      apply Forall_app. split.
      * eapply Forall_impl; [exact Hm|]. intros a Ha. inversion Ha; assumption.
      * constructor; [|constructor]. simpl.
        rewrite forallb_forall in Hk. apply List.Forall_forall.
        intros b Hb. apply Hk, in_map, Hb.
    + eapply Forall_impl; [exact Hm|]. intros a Ha. inversion Ha; assumption.
Qed.

Lemma as_map_increasing o :
  increasing (List.map fst o) = true -> as_map o = o.
Proof. intros H. apply (fold_map_set_increasing o [] H). constructor. Qed.

Lemma ltb_trans a b c :
  String.ltb a b = true -> String.ltb b c = true -> String.ltb a c = true.
Proof.
  unfold String.ltb. intros Hab Hbc.
  destruct (String.compare a b) eqn:Cab; try discriminate.
  destruct (String.compare b c) eqn:Cbc; try discriminate.
  apply OrderedTypeEx.String_as_OT.cmp_lt in Cab, Cbc.
  pose proof (OrderedTypeEx.String_as_OT.lt_trans _ _ _ Cab Cbc) as Cac.
  apply OrderedTypeEx.String_as_OT.cmp_lt in Cac.
  unfold OrderedTypeEx.String_as_OT.cmp in Cac. rewrite Cac. reflexivity.
Qed.

Lemma map_set_keys {V} (m : list (string * V)) k v x :
  In x (List.map fst (map_set m k v)) -> x = k \/ In x (List.map fst m).
Proof.
  induction m as [|[k' v'] m IH]; simpl.
  - intros [<- | []]. now left.
  - destruct (String.compare k k') eqn:Hc; simpl.
    + intros H. right. exact H.
    + intros [<- | H]; [now left | right; exact H].
    + intros [<- | H]; [right; now left|].
      destruct (IH H) as [-> | Hin]; [now left | right; now right].
Qed.

(** A Go map, as it is modelled, keeps its keys in increasing order. *)
Lemma map_set_increasing {V} (m : list (string * V)) k v :
  increasing (List.map fst m) = true ->
  increasing (List.map fst (map_set m k v)) = true.
Proof.
  induction m as [|[k' v'] m IH]; simpl; [reflexivity|].
  intros H. apply andb_true_iff in H as [Hk' Hm].
  destruct (String.compare k k') eqn:Hc; simpl.
  - rewrite Hk', Hm. reflexivity.
  - assert (Hlt : String.ltb k k' = true) by (unfold String.ltb; rewrite Hc; reflexivity).
    rewrite Hlt, Hk', Hm. simpl. rewrite andb_true_r.
    apply forallb_forall. intros x Hx. rewrite forallb_forall in Hk'.
    eapply ltb_trans; [exact Hlt | apply Hk', Hx].
  - rewrite (IH Hm), andb_true_r. apply forallb_forall. intros x Hx.
    destruct (map_set_keys m k v x Hx) as [-> | Hin].
    + unfold String.ltb. rewrite (String.compare_antisym k' k), Hc. reflexivity.
    + rewrite forallb_forall in Hk'. apply Hk', Hin.
Qed.

Lemma fold_map_set_keys_increasing (o : list (string * JSON)) : forall m,
  increasing (List.map fst m) = true ->
  increasing (List.map fst (fold_left (fun m kv => map_set m (fst kv) (snd kv)) o m))
  = true.
Proof.
  induction o as [|[k x] o IH]; intros m Hm; simpl; [exact Hm|].
  apply IH, map_set_increasing, Hm.
Qed.

Lemma as_map_keys_increasing o : increasing (List.map fst (as_map o)) = true.
Proof. apply fold_map_set_keys_increasing. reflexivity. Qed.

Lemma fold_append {V} (vs : list V) (i : option (list V)) :
  fold_left append vs i =
  match vs, i with
  | [], _ => i
  | _, None => Some vs
  | _, Some l => Some (l ++ vs)
  end.
Proof.
  revert i. induction vs as [|v vs IH]; intros i; [reflexivity|].
  simpl. rewrite IH. destruct vs as [|w vs]; destruct i as [l|]; simpl;
    rewrite <- ?app_assoc; reflexivity.
Qed.

Lemma arrayRange_values ns vs :
  Forall2 (fun n x => makeJSON n = Ok x) ns vs ->
  forall i, arrayRange ns i = Ok (GSlice (fold_left append vs i)).
Proof.
  induction 1 as [|n x ns vs Hn _ IH]; intros i; simpl; [reflexivity|].
  rewrite Hn. simpl. apply IH.
Qed.

Section RoundTrip.

(** [strconv.ParseFloat] reads back the float that [strconv.FormatFloat]
    printed. *)
Hypothesis ParseFloat_FormatFloat : forall f, ParseFloat (FormatFloat f) = (f, None).

Lemma scalar_round_trip v :
  is_scalar v = true -> int_fits v = true ->
  refJSONType (GetReference (build v)) = Value
  /\ encode (parseValue (build v)) = v.
Proof using ParseFloat_FormatFloat.
  destruct v as [|b|[z|f]|s|l|o]; try discriminate; intros _ Hfit;
    (split; [reflexivity|]).
  - reflexivity.
  - destruct b; reflexivity.
  - simpl in Hfit. apply andb_true_iff in Hfit as [H1 H2].
    apply Z.leb_le in H1, H2.
    unfold parseValue. simpl. rewrite Atoi_Itoa by lia. reflexivity.
  - unfold parseValue. simpl. rewrite ParseFloat_FormatFloat. reflexivity.
  - reflexivity.
Qed.

Lemma objectRange_flat o :
  Forall (fun kv => is_scalar (snd kv) = true /\ int_fits (snd kv) = true) o ->
  forall i, exists m,
    objectRange
      (List.map (fun kv => let '(k, x) := kv in
                           Node k (mkReference Key String) [build x]) o) i
    = Ok (GMap m)
    /\ List.map (fun kv => let '(k, x) := kv in (k, encode x)) m
       = fold_left (fun m kv => map_set m (fst kv) (snd kv)) o
                   (List.map (fun kv => let '(k, x) := kv in (k, encode x)) i).
Proof using ParseFloat_FormatFloat.
  induction 1 as [|[k x] o [Hs Hf] _ IH]; intros i; simpl.
  - exists i. split; reflexivity.
  - simpl in Hs, Hf. destruct (scalar_round_trip x Hs Hf) as [Hv He].
    destruct (decide _) as [_|ne]; [|contradiction]. simpl.
    destruct (IH (map_set i k (parseValue (build x)))) as (m & Hm & Hen).
    exists m. split; [exact Hm|]. rewrite Hen, map_set_map, He. reflexivity.
Qed.

Lemma everywhere_here P v : everywhere P v = true -> P v = true.
Proof. destruct v; simpl; intros H; apply andb_true_iff in H as [H _]; exact H. Qed.

Lemma everywhere_JArray P l :
  everywhere P (JArray l) = true -> Forall (fun x => everywhere P x = true) l.
Proof.
  simpl. intros H. apply andb_true_iff in H as [_ H].
  rewrite forallb_forall in H. apply List.Forall_forall. exact H.
Qed.

Lemma everywhere_JObject P o :
  everywhere P (JObject o) = true ->
  Forall (fun kv => everywhere P (snd kv) = true) o.
Proof.
  simpl. intros H. apply andb_true_iff in H as [_ H].
  rewrite forallb_forall in H. apply List.Forall_forall.
  intros [k x] Hin. apply (H _ Hin).
Qed.

Lemma scalar_props_deep_equal (o : list (string * JSON)) :
  Forall (fun kv => is_scalar (snd kv) = true /\ int_fits (snd kv) = true) o ->
  Forall2 (fun a b => fst a = fst b /\ deep_equal (snd a) (snd b)) o o.
Proof.
  induction 1 as [|kv o [Hs _] _ IHo]; [constructor|].
  constructor; [|exact IHo]. split; [reflexivity|]. apply deep_equal_scalar, Hs.
Qed.

Lemma Forall2_same {A} (D : A -> A -> Prop) (I : A -> Prop) l ws :
  Forall2 (fun x w => D x w /\ (I x <-> w = x)) l ws -> (Forall I l <-> ws = l).
Proof.
  induction 1 as [|x w l ws [_ Hx] _ IHl]; [split; [reflexivity | constructor]|].
  split.
  - intros Hall. inversion Hall; subst. f_equal; [apply Hx | apply IHl]; assumption.
  - intros Heq. injection Heq as Hw Hws.
    constructor; [apply Hx, Hw | apply IHl, Hws].
Qed.

Lemma array_elements (Q : JSON -> JSON -> Prop) l :
  Forall (fun x => exists w, encode <$> makeJSON (build x) = Ok w /\ Q x w) l ->
  exists vs, Forall2 (fun n x => makeJSON n = Ok x) (List.map build l) vs
             /\ Forall2 Q l (List.map encode vs).
Proof.
  induction 1 as [|x l (w & Hx & Hq) _ (vs & Hvs & Hen)].
  - exists []. split; constructor.
  - destruct (makeJSON (build x)) as [g| |] eqn:Hg; try discriminate.
    exists (g :: vs). split; [constructor; assumption|].
    simpl in *. constructor; [congruence | exact Hen].
Qed.

Lemma everywhere_scalar P v : is_scalar v = true -> everywhere P v = P v.
Proof. destruct v; try discriminate; intros _; simpl; apply andb_true_r. Qed.

Lemma scalar_props_increasing (o : list (string * JSON)) :
  Forall (fun kv => is_scalar (snd kv) = true /\ int_fits (snd kv) = true) o ->
  forallb (fun kv => let '(_, x) := kv in everywhere increasing_keys x) o = true.
Proof.
  induction 1 as [|[k x] o [Hs _] _ IHo]; [reflexivity|].
  simpl in *. rewrite IHo, (everywhere_scalar _ _ Hs).
  destruct x; try discriminate; reflexivity.
Qed.

(** C2 (amended).  Provided that [ParseFloat] reads back the float that
    [FormatFloat] printed: for a JSON value in which no property of an
    object is an object or an array, no array is empty, every integral
    number is an [int] and the keys of an object are pairwise different,
    the value serialized from the built tree is written as a JSON value
    that is deep-equal to it up to the order of the keys of its objects;
    and it is the same value, order included, exactly when the keys of
    every object in it were in increasing order. *)
Theorem build_makeJSON_round_trip v :
  everywhere flat_object v = true ->
  everywhere nonempty_array v = true ->
  everywhere int_fits v = true ->
  everywhere distinct_keys v = true ->
  exists w,
    encode <$> makeJSON (build v) = Ok w
    /\ deep_equal v w
    /\ (everywhere increasing_keys v = true <-> w = v).
Proof using ParseFloat_FormatFloat.
  induction v as [|b|n|s|l IH|o IH] using JSON_rect'; intros Hflat Hne Hfit Hkeys.
  - exists JNull. split; [reflexivity|]. split; [constructor; reflexivity|].
    split; reflexivity.
  - destruct (scalar_round_trip (JBool b) eq_refl eq_refl) as [_ He].
    exists (JBool b). split; [simpl; f_equal; exact He|].
    split; [constructor; reflexivity | split; reflexivity].
  - destruct (scalar_round_trip (JNumber n) eq_refl (everywhere_here _ _ Hfit))
      as [_ He].
    exists (JNumber n). split; [destruct n; simpl; f_equal; exact He|].
    split; [constructor; reflexivity | split; reflexivity].
  - exists (JString s). split; [reflexivity|]. split; [constructor; reflexivity|].
    split; reflexivity.
  - assert (Hall : Forall (fun x => exists w,
               encode <$> makeJSON (build x) = Ok w
               /\ (deep_equal x w
                   /\ (everywhere increasing_keys x = true <-> w = x))) l).
    { apply everywhere_JArray in Hflat, Hne, Hfit, Hkeys.
      rewrite List.Forall_forall in *. intros x Hx. apply IH; auto. }
    destruct (array_elements _ l Hall) as (vs & Hvs & Hen).
    exists (JArray (List.map encode vs)). split; [|split].
    + simpl build. rewrite makeJSON_Array by reflexivity.
      rewrite (arrayRange_values _ _ Hvs), fold_append.
      apply everywhere_here in Hne.
      destruct vs as [|g vs]; [|reflexivity].
      apply Forall2_length in Hen. destruct l; discriminate.
    + constructor. eapply Forall2_impl; [exact Hen|]. intros x w [H _]. exact H.
    + pose proof (Forall2_same _ _ _ _ Hen) as Hsame. split.
      * intros Hinc. apply everywhere_JArray in Hinc. f_equal.
        apply Hsame, Hinc.
      * intros Heq. injection Heq as Heq. apply Hsame in Heq.
        simpl. apply forallb_forall. rewrite List.Forall_forall in Heq. exact Heq.
  - assert (Hprops : Forall (fun kv => is_scalar (snd kv) = true
                                       /\ int_fits (snd kv) = true) o).
    { apply everywhere_here in Hflat. simpl in Hflat.
      rewrite forallb_forall in Hflat.
      apply everywhere_JObject in Hfit. rewrite List.Forall_forall in *.
      intros kv Hin. split; [apply Hflat, Hin|].
      apply everywhere_here, Hfit, Hin. }
    destruct (objectRange_flat o Hprops []) as (m & Hm & Hen).
    exists (JObject (as_map o)). split; [|split].
    + simpl build. rewrite makeJSON_Object by reflexivity.
      rewrite Hm. simpl. rewrite Hen. reflexivity.
    + apply deep_equal_object with (o' := o).
      * apply scalar_props_deep_equal, Hprops.
      * apply as_map_Permutation. apply everywhere_here in Hkeys. exact Hkeys.
    + split.
      * intros Hinc. apply everywhere_here in Hinc. simpl in Hinc.
        rewrite as_map_increasing by exact Hinc. reflexivity.
      * intros Heq. injection Heq as Heq. simpl.
        rewrite (scalar_props_increasing o Hprops), andb_true_r.
        rewrite <- Heq. apply as_map_keys_increasing.
Qed.

End RoundTrip.

(** ** The store and the trees it denotes *)

Lemma tree_of_S fuel h p t :
  tree_of (S fuel) h p = Some t <->
  exists c cs, h !! p = Some c
    /\ Forall2 (fun q u => tree_of fuel h q = Some u) (n_children c) cs
    /\ t = Node (n_text c) (n_reference c) cs.
Proof.
  simpl. split.
  - intros H. destruct (h !! p) as [c|]; [|discriminate]. simpl in H.
    destruct (mapM (tree_of fuel h) (n_children c)) as [cs|] eqn:Hcs;
      [|discriminate].
    simpl in H. injection H as <-. exists c, cs.
    split; [reflexivity|]. split; [|reflexivity]. apply mapM_Some, Hcs.
  - intros (c & cs & -> & Hcs & ->). simpl.
    apply mapM_Some in Hcs. rewrite Hcs. reflexivity.
Qed.

Lemma tree_of_mono fuel h p t :
  tree_of fuel h p = Some t -> tree_of (S fuel) h p = Some t.
Proof.
  revert p t. induction fuel as [|fuel IH]; intros p t; [discriminate|].
  intros H. apply tree_of_S in H as (c & cs & Hc & Hcs & ->).
  apply tree_of_S. exists c, cs. split; [exact Hc|]. split; [|reflexivity].
  eapply Forall2_impl; [exact Hcs|]. intros q u. apply IH.
Qed.

Lemma tree_of_le fuel fuel' h p t :
  (fuel <= fuel')%nat -> tree_of fuel h p = Some t -> tree_of fuel' h p = Some t.
Proof.
  induction 1 as [|fuel' _ IH]; [trivial|]. intros H. apply tree_of_mono, IH, H.
Qed.

Lemma tree_of_extends fuel h h' p t :
  extends h h' -> tree_of fuel h p = Some t -> tree_of fuel h' p = Some t.
Proof.
  intros Hext. revert p t. induction fuel as [|fuel IH]; intros p t; [discriminate|].
  intros H. apply tree_of_S in H as (c & cs & Hc & Hcs & ->).
  apply tree_of_S. exists c, cs. split; [apply Hext, Hc|]. split; [|reflexivity].
  eapply Forall2_impl; [exact Hcs|]. intros q u. apply IH.
Qed.

Lemma extends_refl h : extends h h.
Proof. intros p c H. exact H. Qed.

Lemma extends_trans h1 h2 h3 : extends h1 h2 -> extends h2 h3 -> extends h1 h3.
Proof. intros H12 H23 p c H. apply H23, H12, H. Qed.

Lemma extends_app h d : extends h (h ++ d).
Proof. intros p c H. apply lookup_app_l_Some, H. Qed.

Lemma extends_insert_new h (p : ptr) (c : TreeNode) :
  (length h <= p)%nat -> forall d, extends h (<[p := c]> (h ++ d)).
Proof.
  intros Hp d q x Hq. pose proof (lookup_lt_Some _ _ _ Hq).
  rewrite list_lookup_insert_ne by lia. apply lookup_app_l_Some, Hq.
Qed.

(** ** The filter walk *)

Lemma walk_S fuel h nodes text :
  walk (S fuel) h nodes text = walkRange fuel h text nodes [].
Proof. reflexivity. Qed.

Lemma walkRange_cons fuel h text child ns newNodes :
  walkRange fuel h text (child :: ns) newNodes =
  c ← deref h child;
  if matches (n_text c) text then walkRange fuel h text ns (newNodes ++ [child])
  else r ← walk fuel h (n_children c) text; walkRange fuel h text ns (newNodes ++ r).
Proof. reflexivity. Qed.

Lemma filter_forest_cons q t ts :
  filter_forest q (t :: ts) = filter_node q t ++ filter_forest q ts.
Proof. reflexivity. Qed.

Lemma walkRange_refines fuel h text :
  (forall nodes ts,
      Forall2 (fun p t => tree_of fuel h p = Some t) nodes ts ->
      exists r, walk (S fuel) h nodes text = Ok r
        /\ Forall2 (fun p t => tree_of fuel h p = Some t) r (filter_forest text ts)) ->
  forall nodes ts,
    Forall2 (fun p t => tree_of (S fuel) h p = Some t) nodes ts ->
    forall acc, exists r,
      walkRange (S fuel) h text nodes acc = Ok (acc ++ r)
      /\ Forall2 (fun p t => tree_of (S fuel) h p = Some t) r (filter_forest text ts).
Proof.
  intros IH. induction 1 as [|p t nodes ts Hp _ IHn]; intros acc.
  - exists []. rewrite app_nil_r. split; [reflexivity | constructor].
  - apply tree_of_S in Hp as Hp'. destruct Hp' as (c & cs & Hc & Hcs & ->).
    rewrite walkRange_cons. unfold deref. rewrite Hc. cbn [mbind Res_bind].
    rewrite filter_forest_cons. simpl filter_node.
    destruct (matches (n_text c) text).
    + destruct (IHn (acc ++ [p])) as (r & Hr & Hts).
      exists (p :: r). rewrite Hr, <- app_assoc. split; [reflexivity|].
      constructor; assumption.
    + destruct (IH _ _ Hcs) as (r1 & Hr1 & Hts1). rewrite Hr1. cbn [mbind Res_bind].
      destruct (IHn (acc ++ r1)) as (r & Hr & Hts).
      exists (r1 ++ r). rewrite Hr, <- app_assoc. split; [reflexivity|].
      apply Forall2_app; [|exact Hts].
      eapply Forall2_impl; [exact Hts1|]. intros q u. apply tree_of_mono.
Qed.

Lemma walk_denotes fuel h nodes ts text :
  Forall2 (fun p t => tree_of fuel h p = Some t) nodes ts ->
  exists r, walk (S fuel) h nodes text = Ok r
    /\ Forall2 (fun p t => tree_of fuel h p = Some t) r (filter_forest text ts).
Proof.
  revert nodes ts. induction fuel as [|fuel IH]; intros nodes ts H.
  - destruct H as [|p t nodes ts Hp _]; [|discriminate].
    exists []. split; [reflexivity | constructor].
  - rewrite walk_S.
    destruct (walkRange_refines fuel h text IH nodes ts H []) as (r & Hr & Hts).
    exists r. split; assumption.
Qed.

(** C5.  On nodes that denote the trees [ts], [walk] returns, in order,
    pointers to exactly the trees that the filter of the spec selects from
    [ts]: a matching node itself, with the subtree it had, and for a node
    that does not match whatever the walk of its children returns.  A node
    matches when the query occurs in its lowered label. *)
Theorem walk_refines_filter_forest fuel h nodes ts text :
  Forall2 (fun p t => tree_of fuel h p = Some t) nodes ts ->
  (exists r, walk (S fuel) h nodes text = Ok r
     /\ Forall2 (fun p t => tree_of fuel h p = Some t) r (filter_forest text ts))
  /\ (forall t rest,
        filter_forest text (t :: rest)
        = (if matches (GetText t) text then [t]
           else filter_forest text (GetChildren t))
          ++ filter_forest text rest)
  /\ (forall label,
        matches label text = true <-> contains (strings.ToLower Map_ToLower label) text).
Proof.
  intros H. split; [apply walk_denotes, H|]. split.
  - intros [label ref children] rest. reflexivity.
  - intros label. apply matches_spec.
Qed.

(** ** The filter and the snapshot *)

(** One filter call, on an editor whose snapshot denotes a tree: the call
    returns; no node that existed before is touched; the snapshot and the
    selection stay; the new root is a fresh node; with the empty query it
    is a copy of the snapshot's root node. *)
Lemma Search_step fuel text g t :
  tree_of fuel (mem g) (OriginRoot g) = Some t ->
  exists g', Search fuel text g = Ok g'
    /\ extends (mem g) (mem g')
    /\ OriginRoot g' = OriginRoot g
    /\ currentNode g' = currentNode g
    /\ root g' = length (mem g)
    /\ (text = "" -> mem g' !! root g' = mem g !! OriginRoot g).
Proof.
  intros Ht. destruct fuel as [|fuel]; [discriminate|].
  apply tree_of_S in Ht as (c & cs & Hc & Hcs & ->).
  unfold Search, deref. rewrite Hc. cbn [mbind Res_bind new].
  destruct (String.eqb_spec text "") as [->|Hne]; cbn [negb].
  - eexists. split; [reflexivity|]. cbn [mem root OriginRoot currentNode].
    repeat split.
    + apply extends_app.
    + intros _. apply list_lookup_middle. reflexivity.
  - cbn [root mem currentNode OriginRoot].
    rewrite (list_lookup_middle (mem g) [] c (length (mem g)) eq_refl).
    cbn [mbind Res_bind].
    destruct (walk_denotes fuel (mem g ++ [c]) (n_children c) cs text)
      as (r & Hr & _).
    { eapply Forall2_impl; [exact Hcs|]. intros q u.
      apply tree_of_extends, extends_app. }
    rewrite Hr. cbn [mbind Res_bind]. unfold SetChildren, deref.
    rewrite (list_lookup_middle (mem g) [] c (length (mem g)) eq_refl).
    cbn [mbind Res_bind].
    eexists. split; [reflexivity|]. cbn [mem root OriginRoot currentNode].
    repeat split.
    + apply extends_insert_new. lia.
    + intros ->. contradiction.
Qed.

Lemma filters_run fuel queries : forall g t,
  tree_of fuel (mem g) (OriginRoot g) = Some t ->
  exists g', filters fuel queries g = Ok g'
    /\ extends (mem g) (mem g')
    /\ OriginRoot g' = OriginRoot g
    /\ currentNode g' = currentNode g.
Proof.
  induction queries as [|q queries IH]; intros g t Ht; simpl.
  - exists g. repeat split. apply extends_refl.
  - destruct (Search_step fuel q g t Ht) as (g1 & Hs & Hext & Ho & Hcur & _).
    rewrite Hs. cbn [mbind Res_bind].
    destruct (IH g1 t) as (g' & Hf & Hext' & Ho' & Hcur').
    { rewrite Ho. eapply tree_of_extends; eassumption. }
    exists g'. split; [exact Hf|]. split; [eapply extends_trans; eassumption|].
    split; congruence.
Qed.

(** C6.  Start from an editor whose snapshot denotes the tree [t].  Any
    sequence of filter calls returns, and so does the call with the empty
    query after it; the tree then on display is [t] again; the snapshot
    pointer is the one from the start and still denotes [t]; every node
    that was in the store at the start is there unchanged, with its text,
    reference and list of children. *)
Theorem filter_then_reset_restores fuel queries g t :
  tree_of fuel (mem g) (OriginRoot g) = Some t ->
  exists g1 g2,
    filters fuel queries g = Ok g1
    /\ Search fuel "" g1 = Ok g2
    /\ tree_of fuel (mem g2) (root g2) = Some t
    /\ OriginRoot g2 = OriginRoot g
    /\ tree_of fuel (mem g2) (OriginRoot g2) = Some t
    /\ extends (mem g) (mem g1) /\ extends (mem g) (mem g2).
Proof.
  intros Ht.
  destruct (filters_run fuel queries g t Ht) as (g1 & Hf & Hext1 & Ho1 & _).
  assert (Ht1 : tree_of fuel (mem g1) (OriginRoot g1) = Some t).
  { rewrite Ho1. eapply tree_of_extends; eassumption. }
  destruct (Search_step fuel "" g1 t Ht1) as (g2 & Hs & Hext2 & Ho2 & _ & _ & Hroot).
  specialize (Hroot eq_refl).
  assert (Ht2 : tree_of fuel (mem g2) (OriginRoot g2) = Some t).
  { rewrite Ho2. eapply tree_of_extends; eassumption. }
  exists g1, g2. repeat split; try assumption.
  - destruct fuel as [|fuel]; [discriminate|].
    apply tree_of_S in Ht1 as (c & cs & Hc & Hcs & ->).
    apply tree_of_S. exists c, cs. split; [congruence|]. split; [|reflexivity].
    eapply Forall2_impl; [exact Hcs|]. intros q u. apply tree_of_extends, Hext2.
  - congruence.
  - eapply extends_trans; eassumption.
Qed.

(** ** Allocation of built trees *)

Lemma alloc_Node text ref children h :
  alloc (Node text ref children) h =
  let '(ps, h1) := allocs children h in new h1 (mkTreeNode text ref ps).
Proof. reflexivity. Qed.

Lemma tree_of_list_max h ps ts :
  Forall2 (fun p t => tree_of (height t) h p = Some t) ps ts ->
  Forall2 (fun p t => tree_of (list_max (List.map height ts)) h p = Some t) ps ts.
Proof.
  induction 1 as [|p t ps ts Hp _ IH]; [constructor|].
  simpl. constructor.
  - eapply tree_of_le; [|exact Hp]. apply Nat.le_max_l.
  - eapply Forall2_impl; [exact IH|]. intros q u.
    apply tree_of_le, Nat.le_max_r.
Qed.

Lemma allocs_ok ts :
  Forall alloc_ok ts ->
  forall h, exists d,
    snd (allocs ts h) = h ++ d
    /\ Forall (fun p => length h <= p)%nat (fst (allocs ts h))
    /\ forall h0, length h0 = length h ->
         Forall2 (fun p t => tree_of (height t) (h0 ++ d) p = Some t)
                 (fst (allocs ts h)) ts.
Proof.
  induction 1 as [|t ts Ht _ IH]; intros h.
  - exists []. rewrite app_nil_r. repeat split; constructor.
  - simpl. destruct (Ht h) as (d1 & Hd1 & Hp & Ht1).
    destruct (alloc t h) as [p h1]. simpl in Hd1, Hp, Ht1. subst h1.
    destruct (IH (h ++ d1)) as (d2 & Hd2 & Hps & Hts).
    destruct (allocs ts (h ++ d1)) as [ps h2]. simpl in Hd2, Hps, Hts. subst h2.
    exists (d1 ++ d2). simpl. split; [apply eq_sym, app_assoc|]. split.
    + constructor; [exact Hp|]. eapply Forall_impl; [exact Hps|].
      intros q Hq. simpl in Hq. rewrite length_app in Hq. lia.
    + intros h0 Hlen. rewrite app_assoc. constructor.
      * eapply tree_of_extends; [apply extends_app | apply Ht1, Hlen].
      * apply Hts. rewrite !length_app. lia.
Qed.

Lemma alloc_spec t : alloc_ok t.
Proof.
  induction t as [text ref children IH] using tree_rect'. intros h.
  rewrite alloc_Node.
  destruct (allocs_ok children IH h) as (d & Hd & _ & Hts).
  destruct (allocs children h) as [ps h1]. simpl in Hd, Hts. subst h1.
  exists (d ++ [mkTreeNode text ref ps]). unfold new. simpl.
  split; [apply eq_sym, app_assoc|]. split; [rewrite length_app; lia|].
  intros h0 Hlen. rewrite app_assoc.
  apply tree_of_S. exists (mkTreeNode text ref ps), children.
  split; [|split; [|reflexivity]].
  - apply list_lookup_middle. rewrite !length_app. lia.
  - simpl. apply tree_of_list_max. eapply Forall2_impl; [apply Hts, Hlen|].
    intros q u. apply tree_of_extends, extends_app.
Qed.

Lemma Tree_AddNode_spec i h :
  exists d,
    snd (Tree_AddNode i h) = h ++ d
    /\ Forall (fun p => length h <= p)%nat (fst (Tree_AddNode i h))
    /\ forall h0, length h0 = length h ->
         Forall2 (fun p t => tree_of (height t) (h0 ++ d) p = Some t)
                 (fst (Tree_AddNode i h)) (buildTopLevelChildren i).
Proof.
  apply allocs_ok. apply List.Forall_forall. intros t _. apply alloc_spec.
Qed.

(** After a load the root and the snapshot are two nodes, and both denote
    the tree built from the loaded value. *)
Lemma UpdateView_denotes i g :
  let g' := UpdateView i g in
  tree_of (height (build i)) (mem g') (root g') = Some (build i)
  /\ tree_of (height (build i)) (mem g') (OriginRoot g') = Some (build i)
  /\ currentNode g' = root g'
  /\ OriginRoot g' <> root g'.
Proof.
  unfold UpdateView. destruct (build i) as [text ref children]. simpl GetChildren.
  simpl GetText. simpl GetReference.
  destruct (allocs_ok children) with (h := mem g) as (d & Hd & _ & Hts).
  { apply List.Forall_forall. intros t _. apply alloc_spec. }
  destruct (allocs children (mem g)) as [ps h1]. simpl in Hd, Hts. subst h1.
  unfold new. cbn zeta. cbn [mem root OriginRoot currentNode].
  set (c := mkTreeNode text ref ps).
  assert (Hkids : Forall2 (fun p t => tree_of (list_max (List.map height children))
                                        (((mem g ++ d) ++ [c]) ++ [c]) p = Some t)
                          ps children).
  { apply tree_of_list_max. eapply Forall2_impl; [apply (Hts (mem g) eq_refl)|].
    intros q u Hq. rewrite <- app_assoc.
    eapply tree_of_extends; [apply extends_app | exact Hq]. }
  repeat split.
  - apply tree_of_S. exists c, children. split; [|split; [exact Hkids | reflexivity]].
    apply lookup_app_l_Some, list_lookup_middle. reflexivity.
  - apply tree_of_S. exists c, children. split; [|split; [exact Hkids | reflexivity]].
    apply list_lookup_middle. reflexivity.
  - rewrite length_app. simpl. lia.
Qed.

(** ** Grafting *)

Lemma addRange_spec current ns : forall h c,
  h !! current = Some c ->
  addRange current ns h =
  Ok (<[current := mkTreeNode (n_text c) (n_reference c) (n_children c ++ ns)]> h).
Proof.
  induction ns as [|n ns IH]; intros h c Hc.
  - simpl. rewrite app_nil_r. destruct c. rewrite list_insert_id by exact Hc.
    reflexivity.
  - simpl. unfold AddChild at 1, deref. rewrite Hc. cbn [mbind Res_bind].
    erewrite IH by (apply list_lookup_insert_eq; eapply lookup_lt_Some, Hc).
    simpl. rewrite list_insert_insert_eq, <- app_assoc. reflexivity.
Qed.

Lemma UnMarshalJSON_decoded j i :
  j <> "" -> json_Unmarshal j = inl i -> UnMarshalJSON (NewBufferString j) = inl i.
Proof.
  intros Hj Hi. unfold UnMarshalJSON, NewBufferString.
  destruct j; [contradiction|]. simpl. rewrite Hi. reflexivity.
Qed.

Lemma AddValue_unfold j g :
  AddValue j g =
  if String.eqb j "" then Ok (Some ErrEmptyJSON, g)
  else
    match UnMarshalJSON (NewBufferString j) with
    | inr err => Ok (Some err, g)
    | inl i =>
        let '(ns, h1) := Tree_AddNode i (mem g) in
        h2 ← addRange (currentNode g) ns h1;
        Ok (None, mkGui h2 (root g) (currentNode g) (root g))
    end.
Proof. reflexivity. Qed.

Lemma AddValue_spec j i g c :
  j <> "" -> json_Unmarshal j = inl i ->
  mem g !! currentNode g = Some c ->
  exists ns h',
    AddValue j g = Ok (None, mkGui h' (root g) (currentNode g) (root g))
    /\ h' !! currentNode g
       = Some (mkTreeNode (n_text c) (n_reference c) (n_children c ++ ns))
    /\ Forall2 (fun p t => tree_of (height t) h' p = Some t)
               ns (buildTopLevelChildren i)
    /\ Forall (fun p => length (mem g) <= p)%nat ns.
Proof.
  intros Hj Hi Hc. pose proof (lookup_lt_Some _ _ _ Hc) as Hlt.
  rewrite AddValue_unfold. destruct (String.eqb_spec j "") as [|_]; [contradiction|].
  rewrite (UnMarshalJSON_decoded j i Hj Hi).
  destruct (Tree_AddNode_spec i (mem g)) as (d & Hd & Hps & Hts).
  destruct (Tree_AddNode i (mem g)) as [ns h1]. simpl in Hd, Hps, Hts. subst h1.
  rewrite (addRange_spec _ _ _ c) by (apply lookup_app_l_Some, Hc).
  cbn [mbind Res_bind]. rewrite insert_app_l by exact Hlt.
  eexists ns, _. split; [reflexivity|]. repeat split.
  - apply lookup_app_l_Some, list_lookup_insert_eq, Hlt.
  - apply Hts, length_insert.
  - exact Hps.
Qed.

Lemma AddNode_spec j i g c :
  j <> "" -> json_Unmarshal j = inl i ->
  mem g !! currentNode g = Some c ->
  exists w h',
    AddNode j g = Ok (None, mkGui h' (root g) (currentNode g) (root g))
    /\ h' !! currentNode g
       = Some (mkTreeNode (n_text c) (n_reference c) (n_children c ++ [w]))
    /\ tree_of (S (list_max (List.map height (buildTopLevelChildren i)))) h' w
       = Some (Node (fst (rootLabel i)) (snd (rootLabel i)) (buildTopLevelChildren i))
    /\ (length (mem g) <= w)%nat.
Proof.
  intros Hj Hi Hc. pose proof (lookup_lt_Some _ _ _ Hc) as Hlt.
  unfold AddNode. destruct (String.eqb_spec j "") as [|_]; [contradiction|].
  rewrite (UnMarshalJSON_decoded j i Hj Hi).
  unfold NewRootTreeNode, new. destruct (rootLabel i) as [text ref]. simpl fst. simpl snd.
  set (w0 := mkTreeNode text ref []).
  destruct (Tree_AddNode_spec i (mem g ++ [w0])) as (d & Hd & Hps & Hts).
  destruct (Tree_AddNode i (mem g ++ [w0])) as [ns h2]. simpl in Hd, Hps, Hts. subst h2.
  assert (Hw0 : (mem g ++ [w0]) !! length (mem g) = Some w0)
    by (apply list_lookup_middle; reflexivity).
  unfold SetChildren, deref. rewrite (lookup_app_l_Some _ d _ _ Hw0).
  cbn [mbind Res_bind n_text n_reference w0].
  set (w := mkTreeNode text ref ns).
  assert (Hlen0 : (length (mem g) < length (mem g ++ [w0]))%nat)
    by (rewrite length_app; simpl; lia).
  rewrite insert_app_l by exact Hlen0.
  unfold AddChild, deref.
  assert (Hcur : (<[length (mem g) := w]> (mem g ++ [w0]) ++ d) !! currentNode g = Some c).
  { apply lookup_app_l_Some. rewrite list_lookup_insert_ne by lia.
    apply lookup_app_l_Some, Hc. }
  rewrite Hcur. cbn [mbind Res_bind].
  rewrite insert_app_l by (rewrite length_insert; lia).
  eexists (length (mem g)), _. split; [reflexivity|]. repeat split.
  - apply lookup_app_l_Some, list_lookup_insert_eq. rewrite length_insert. lia.
  - apply tree_of_S. exists w, (buildTopLevelChildren i).
    split; [|split; [|reflexivity]].
    + apply lookup_app_l_Some. rewrite list_lookup_insert_ne by lia.
      apply list_lookup_insert_eq, Hlen0.
    + simpl. apply tree_of_list_max, Hts. rewrite !length_insert. reflexivity.
  - lia.
Qed.

(** X11.  Where a graft puts the new nodes (the part of C8 that the
    code keeps).  With a node selected and a fragment that decodes to [i]:
    [AddValue] appends to the children of the selection one new node for
    each top-level subtree of the fragment, in order, each denoting that
    subtree (for [{"x":1,"y":2}] the two [Key] nodes [x] and [y]);
    [AddNode] appends exactly one new node, the wrapper, whose children
    denote those subtrees.  In both cases the new nodes are fresh and the
    snapshot pointer becomes the root pointer of the tree view. *)
Theorem graft_placement j i g c :
  j <> "" -> json_Unmarshal j = inl i ->
  mem g !! currentNode g = Some c ->
  (exists ns h',
      AddValue j g = Ok (None, mkGui h' (root g) (currentNode g) (root g))
      /\ OriginRoot (mkGui h' (root g) (currentNode g) (root g)) = root g
      /\ h' !! currentNode g
         = Some (mkTreeNode (n_text c) (n_reference c) (n_children c ++ ns))
      /\ Forall2 (fun p t => tree_of (height t) h' p = Some t)
                 ns (buildTopLevelChildren i)
      /\ Forall (fun p => length (mem g) <= p)%nat ns)
  /\ (exists w h',
      AddNode j g = Ok (None, mkGui h' (root g) (currentNode g) (root g))
      /\ OriginRoot (mkGui h' (root g) (currentNode g) (root g)) = root g
      /\ h' !! currentNode g
         = Some (mkTreeNode (n_text c) (n_reference c) (n_children c ++ [w]))
      /\ tree_of (S (list_max (List.map height (buildTopLevelChildren i)))) h' w
         = Some (Node (fst (rootLabel i)) (snd (rootLabel i))
                      (buildTopLevelChildren i))
      /\ (length (mem g) <= w)%nat)
  /\ buildTopLevelChildren (JObject [("x", JNumber (NInt 1)); ("y", JNumber (NInt 2))])
     = [Node "x" (mkReference Key String) [Node "1" (mkReference Value Int) []];
        Node "y" (mkReference Key String) [Node "2" (mkReference Value Int) []]].
Proof.
  intros Hj Hi Hc. split; [|split; [|reflexivity]].
  - destruct (AddValue_spec j i g c Hj Hi Hc) as (ns & h' & H1 & H2 & H3 & H4).
    exists ns, h'. repeat split; assumption.
  - destruct (AddNode_spec j i g c Hj Hi Hc) as (w & h' & H1 & H2 & H3 & H4).
    exists w, h'. repeat split; assumption.
Qed.

(** ** Failed decoding *)

(** C7.  The empty buffer is refused with [ErrEmptyJSON]; bytes that the
    decoder rejects are refused with its error; and a load or graft whose
    input is refused returns that error with the editor as it was. *)
Theorem decode_failure_leaves_tree g :
  UnMarshalJSON (inl "") = inr ErrEmptyJSON
  /\ (forall b msg, b <> "" -> json_Unmarshal b = inr msg ->
        UnMarshalJSON (inl b) = inr (DecodeError msg))
  /\ AddNode "" g = Ok (Some ErrEmptyJSON, g)
  /\ AddValue "" g = Ok (Some ErrEmptyJSON, g)
  /\ (forall j err, UnMarshalJSON (NewBufferString j) = inr err ->
        AddNode j g = Ok (Some err, g) /\ AddValue j g = Ok (Some err, g))
  /\ (forall f err, UnMarshalJSON f = inr err ->
        LoadJSON (inl f) g = Ok (Some err, g)).
Proof.
  split; [reflexivity|]. split.
  { intros b msg Hb Hm. unfold UnMarshalJSON.
    destruct b; [contradiction|]. simpl. rewrite Hm. reflexivity. }
  split; [reflexivity|]. split; [reflexivity|]. split.
  - intros j err Herr. unfold AddNode, AddValue.
    destruct (String.eqb_spec j "") as [->|_].
    + simpl in Herr. injection Herr as <-. split; reflexivity.
    + rewrite Herr. split; reflexivity.
  - intros f err Herr. unfold LoadJSON. rewrite Herr. reflexivity.
Qed.

(** * Further properties of the code *)

(** ** What an [Object] and an [Array] node serialize to *)

Lemma compare_refl k : String.compare k k = Eq.
Proof.
  pose proof (String.compare_antisym k k) as H.
  destruct (String.compare k k); simpl in H; congruence.
Qed.

Lemma map_get_map_set {V} (m : list (string * V)) k v k' :
  map_get (map_set m k v) k' = if String.eqb k' k then Some v else map_get m k'.
Proof.
  induction m as [|[k0 v0] m IH]; simpl; [reflexivity|].
  destruct (String.compare k k0) eqn:Hc; simpl.
  - apply String.compare_eq_iff in Hc. subst k0.
    destruct (String.eqb k' k); reflexivity.
  - reflexivity.
  - rewrite IH. destruct (String.eqb_spec k' k0) as [->|]; [|reflexivity].
    destruct (String.eqb_spec k0 k) as [->|]; [|reflexivity].
    rewrite compare_refl in Hc. discriminate.
Qed.

Lemma find_app_l {A} (f : A -> bool) l1 l2 :
  List.find f (l1 ++ l2) =
  match List.find f l1 with
  | Some x => Some x
  | None => List.find f l2
  end.
Proof.
  induction l1 as [|a l1 IH]; simpl; [reflexivity|].
  destruct (f a); [reflexivity | exact IH].
Qed.

Lemma map_get_fold {V} (kvs : list (string * V)) : forall m k,
  map_get (fold_left (fun m kv => map_set m (fst kv) (snd kv)) kvs m) k
  = match last_bound kvs k with
    | Some v => Some v
    | None => map_get m k
    end.
Proof.
  induction kvs as [|[k0 v0] kvs IH]; intros m k; simpl; [reflexivity|].
  rewrite IH. unfold last_bound. simpl rev. rewrite find_app_l.
  destruct (List.find _ (rev kvs)) as [[k1 v1]|]; simpl; [reflexivity|].
  rewrite map_get_map_set. destruct (String.eqb k k0); reflexivity.
Qed.

Lemma objectRange_fold cs vs :
  Forall2 (fun c v => makeJSON c = Ok v) cs vs ->
  forall i,
    objectRange cs i
    = Ok (GMap (fold_left (fun m kv => map_set m (fst kv) (snd kv))
                          (combine (List.map GetText cs) vs) i)).
Proof.
  induction 1 as [|c v cs vs Hc _ IH]; intros i; simpl; [reflexivity|].
  rewrite Hc. simpl. apply IH.
Qed.

(** X1.  An [Object] node whose children all serialize yields a map that
    binds, to every label among the children, the value of the last child
    that carries this label, and binds nothing else. *)
Theorem makeJSON_Object_bindings text vt cs vs :
  Forall2 (fun c v => makeJSON c = Ok v) cs vs ->
  exists m,
    makeJSON (Node text (mkReference Object vt) cs) = Ok (GMap m)
    /\ forall k, map_get m k = last_bound (combine (List.map GetText cs) vs) k.
Proof.
  intros H. eexists. split.
  - rewrite makeJSON_Object by reflexivity. apply objectRange_fold, H.
  - intros k. rewrite map_get_fold.
    destruct (last_bound _ k); reflexivity.
Qed.

Lemma makeJSON_no_fuel t : makeJSON t <> OutOfFuel.
Proof.
  induction t as [text ref cs IH] using tree_rect'.
  destruct (refJSONType ref) eqn:Hty.
  - rewrite makeJSON_Object by assumption. generalize (@nil (string * GoValue)).
    induction IH as [|c cs Hc _ IHcs]; intros i; simpl; [discriminate|].
    destruct (makeJSON c); simpl; [apply IHcs | discriminate | contradiction].
  - rewrite makeJSON_Array by assumption. generalize (@None (list GoValue)).
    induction IH as [|c cs Hc _ IHcs]; intros i; simpl; [discriminate|].
    destruct (makeJSON c); simpl; [apply IHcs | discriminate | contradiction].
  - destruct cs as [|v rest]; simpl; rewrite Hty; [discriminate|].
    destruct (decide _); [discriminate|].
    inversion IH as [|? ? Hv _]; subst.
    destruct (makeJSON v); simpl; [discriminate | discriminate | contradiction].
  - rewrite makeJSON_Value by assumption. discriminate.
Qed.

Lemma arrayRange_fault cs :
  Exists (fun c => makeJSON c = Panic) cs -> forall i, arrayRange cs i = Panic.
Proof.
  induction 1 as [c cs Hc | c cs _ IH]; intros i; simpl.
  - rewrite Hc. reflexivity.
  - pose proof (makeJSON_no_fuel c).
    destruct (makeJSON c); simpl; [apply IH | reflexivity | contradiction].
Qed.

Lemma objectRange_fault cs :
  Exists (fun c => makeJSON c = Panic) cs -> forall i, objectRange cs i = Panic.
Proof.
  induction 1 as [c cs Hc | c cs _ IH]; intros i; simpl.
  - rewrite Hc. reflexivity.
  - pose proof (makeJSON_no_fuel c).
    destruct (makeJSON c); simpl; [apply IH | reflexivity | contradiction].
Qed.

(** X2.  An [Array] node whose children all serialize yields their values
    in the order of the children, whatever their labels, in an allocated
    slice when there is at least one; and a fault in any child of an
    [Array] or [Object] node is a fault of the node. *)
Theorem makeJSON_Array_values text vt cs :
  (forall vs,
      Forall2 (fun c v => makeJSON c = Ok v) cs vs ->
      makeJSON (Node text (mkReference Array vt) cs)
      = Ok (GSlice (match vs with [] => None | _ => Some vs end)))
  /\ (Exists (fun c => makeJSON c = Panic) cs ->
      makeJSON (Node text (mkReference Array vt) cs) = Panic
      /\ makeJSON (Node text (mkReference Object vt) cs) = Panic).
Proof.
  split.
  - intros vs H. rewrite makeJSON_Array by reflexivity.
    rewrite (arrayRange_values _ _ H), fold_append. destruct vs; reflexivity.
  - intros H. split.
    + rewrite makeJSON_Array by reflexivity. apply arrayRange_fault, H.
    + rewrite makeJSON_Object by reflexivity. apply objectRange_fault, H.
Qed.

(** ** What the serializer does not look at *)

Lemma objectRange_same cs cs' :
  Forall2 (fun c c' => GetText c = GetText c' /\ makeJSON c = makeJSON c') cs cs' ->
  forall i, objectRange cs i = objectRange cs' i.
Proof.
  induction 1 as [|c c' cs cs' [Ht Hm] _ IH]; intros i; simpl; [reflexivity|].
  rewrite Hm, Ht. destruct (makeJSON c'); simpl; [apply IH | reflexivity..].
Qed.

Lemma arrayRange_same cs cs' :
  Forall2 (fun c c' => GetText c = GetText c' /\ makeJSON c = makeJSON c') cs cs' ->
  forall i, arrayRange cs i = arrayRange cs' i.
Proof.
  induction 1 as [|c c' cs cs' [Ht Hm] _ IH]; intros i; simpl; [reflexivity|].
  rewrite Hm. destruct (makeJSON c'); simpl; [apply IH | reflexivity..].
Qed.

Lemma same_children (P : tree -> tree -> Prop) cs cs' :
  Forall2 same_for_save cs cs' ->
  Forall (fun t => forall t', same_for_save t t' -> P t t') cs ->
  Forall2 P cs cs'.
Proof.
  induction 1 as [|c c' cs cs' Hc _ IH]; intros Hall; [constructor|].
  inversion Hall as [|? ? Hhere Hrest]; subst.
  constructor; [apply Hhere, Hc | apply IH, Hrest].
Qed.

Lemma same_for_save_eq t : forall t',
  same_for_save t t' ->
  GetText t = GetText t' /\ GetReference t = GetReference t'
  /\ makeJSON t = makeJSON t'.
Proof.
  induction t as [text ref cs IH] using tree_rect'.
  intros t' H. inversion H as [? ? ? cs' Hty | ? ? Hty | ? ? v v' rest rest' Hty Hv
                               | ? ? ? cs' Hty Hcs]; subst.
  - repeat split. rewrite !makeJSON_Value by assumption. reflexivity.
  - repeat split.
  - repeat split. inversion IH as [|? ? IHv _]; subst.
    destruct (IHv v' Hv) as (Ht & Hr & Hm).
    destruct (decide (refJSONType (GetReference v) = Value)) as [Hk|Hk].
    + rewrite !makeJSON_Key_leaf by congruence.
      unfold parseValue. rewrite Ht, Hr. reflexivity.
    + rewrite !makeJSON_Key_composite by congruence. rewrite Hm. reflexivity.
  - repeat split.
    assert (Hchildren : Forall2 (fun c c' => GetText c = GetText c'
                                            /\ makeJSON c = makeJSON c') cs cs').
    { apply (same_children _ cs cs' Hcs). eapply Forall_impl; [exact IH|].
      intros c Hc c' Hcc. destruct (Hc c' Hcc) as (Ht & _ & Hm). split; assumption. }
    destruct Hty as [Hty|Hty].
    + rewrite !makeJSON_Object by assumption. apply objectRange_same, Hchildren.
    + rewrite !makeJSON_Array by assumption. apply arrayRange_same, Hchildren.
Qed.

(** X3.  The serializer never looks below a [Value] node nor at a child
    of a [Key] node other than child 0: trees that differ only there
    serialize to the same value, or both fault. *)
Theorem makeJSON_ignores_hidden_children t t' :
  same_for_save t t' -> makeJSON t = makeJSON t'.
Proof. intros H. apply (same_for_save_eq t t' H). Qed.

(** ** The serializer on the store *)

Lemma makeJSON_at_S fuel h node :
  makeJSON_at (S fuel) h node =
  c ← deref h node;
  match refJSONType (n_reference c) with
  | Object => objectRange_at fuel h (n_children c) []
  | Array => arrayRange_at fuel h (n_children c) None
  | Key =>
      match n_children c with
      | [] => Panic
      | v :: _ =>
          cv ← deref h v;
          if decide (refJSONType (n_reference cv) = Value)
          then Ok (parseValue (Node (n_text cv) (n_reference cv) []))
          else x ← makeJSON_at fuel h v; Ok (GMap [(n_text c, x)])
      end
  | Value => Ok (parseValue (Node (n_text c) (n_reference c) []))
  end.
Proof. reflexivity. Qed.

Lemma deref_Some h p c : h !! p = Some c -> deref h p = Ok c.
Proof. intros H. unfold deref. rewrite H. reflexivity. Qed.

Lemma tree_of_cell fuel h p t :
  tree_of fuel h p = Some t ->
  exists c, h !! p = Some c /\ n_text c = GetText t /\ n_reference c = GetReference t.
Proof.
  destruct fuel as [|fuel]; [discriminate|]. intros H.
  apply tree_of_S in H as (c & cs & Hc & _ & ->). exists c. repeat split. exact Hc.
Qed.

Lemma objectRange_at_same fuel h ns us :
  Forall2 (fun q u => (exists cq, h !! q = Some cq /\ n_text cq = GetText u)
                      /\ makeJSON_at fuel h q = makeJSON u) ns us ->
  forall i, objectRange_at fuel h ns i = objectRange us i.
Proof.
  induction 1 as [|q u ns us [(cq & Hq & Ht) Hm] _ IH]; intros i; simpl;
    [reflexivity|].
  unfold deref. rewrite Hq. cbn [mbind Res_bind]. rewrite Hm, Ht.
  destruct (makeJSON u); cbn [mbind Res_bind]; [apply IH | reflexivity..].
Qed.

Lemma arrayRange_at_same fuel h ns us :
  Forall2 (fun q u => makeJSON_at fuel h q = makeJSON u) ns us ->
  forall i, arrayRange_at fuel h ns i = arrayRange us i.
Proof.
  induction 1 as [|q u ns us Hm _ IH]; intros i; simpl; [reflexivity|].
  rewrite Hm. destruct (makeJSON u); cbn [mbind Res_bind]; [apply IH | reflexivity..].
Qed.

Lemma parseValue_leaf text ref children :
  parseValue (Node text ref children) = parseValue (Node text ref []).
Proof. reflexivity. Qed.

(** The serializer on the store returns what [makeJSON] returns on the
    tree that the node denotes, also after the store has changed where the
    serializer does not look. *)
Lemma makeJSON_at_same h h' :
  same_store_for_save h h' ->
  forall fuel p t, tree_of fuel h p = Some t -> makeJSON_at fuel h' p = makeJSON t.
Proof.
  intros Hsame. induction fuel as [|fuel IH]; intros p t Ht; [discriminate|].
  apply tree_of_S in Ht as (c & cs & Hc & Hcs & ->).
  destruct (Hsame p c Hc) as (c' & Hc' & Htext & Href & Hch).
  rewrite makeJSON_at_S, (deref_Some _ _ _ Hc'). cbn [mbind Res_bind].
  rewrite Href, Htext.
  destruct (refJSONType (n_reference c)) eqn:Hty.
  - destruct Hch as [-> | [? | [? _]]]; [|discriminate..].
    rewrite makeJSON_Object by exact Hty. apply objectRange_at_same.
    eapply Forall2_impl; [exact Hcs|]. intros q u Hq. split; [|apply IH, Hq].
    apply tree_of_cell in Hq as (cq & Hcq & Hqt & _).
    destruct (Hsame q cq Hcq) as (cq' & Hcq' & Hqt' & _).
    exists cq'. split; [exact Hcq' | congruence].
  - destruct Hch as [-> | [? | [? _]]]; [|discriminate..].
    rewrite makeJSON_Array by exact Hty. apply arrayRange_at_same.
    eapply Forall2_impl; [exact Hcs|]. intros q u. apply IH.
  - assert (Hkids : n_children c = [] /\ n_children c' = []
                    \/ exists v rest rest',
                         n_children c = v :: rest /\ n_children c' = v :: rest').
    { destruct Hch as [Heq | [? | [_ Hex]]]; [|discriminate|right; exact Hex].
      rewrite Heq. destruct (n_children c) as [|v rest]; [left; split; reflexivity|].
      right. exists v, rest, rest. split; reflexivity. }
    destruct Hkids as [[Hnil ->] | (v & rest & rest' & Hv & ->)].
    + rewrite Hnil in Hcs. inversion Hcs; subst. simpl. rewrite Hty. reflexivity.
    + rewrite Hv in Hcs. inversion Hcs as [|? u ? us Hu _]; subst.
      apply tree_of_cell in Hu as Hcell. destruct Hcell as (cv & Hcv & Hvt & Hvr).
      destruct (Hsame v cv Hcv) as (cv' & Hcv' & Hvt' & Hvr' & _).
      rewrite (deref_Some _ _ _ Hcv'). cbn [mbind Res_bind].
      rewrite Hvt', Hvr', Hvt, Hvr.
      destruct (decide (refJSONType (GetReference u) = Value)) as [Hk|Hk].
      * rewrite makeJSON_Key_leaf by assumption. destruct u. reflexivity.
      * rewrite makeJSON_Key_composite by assumption. rewrite (IH _ _ Hu). reflexivity.
  - rewrite makeJSON_Value by exact Hty. reflexivity.
Qed.

Lemma same_store_refl h : same_store_for_save h h.
Proof.
  intros p c Hc. exists c. split; [exact Hc|]. repeat split. left. reflexivity.
Qed.

(** What [SaveJSON] hands to the encoder is [makeJSON] of the tree on
    display. *)
Lemma SaveJSON_value_denotes fuel g t :
  tree_of fuel (mem g) (root g) = Some t -> SaveJSON_value fuel g = makeJSON t.
Proof. apply makeJSON_at_same, same_store_refl. Qed.


(** ** When the serializer faults *)

Lemma makeJSON_fault_or_value t :
  (reaches_empty_Key t = true -> makeJSON t = Panic)
  /\ (reaches_empty_Key t = false -> exists v, makeJSON t = Ok v).
Proof.
  induction t as [text ref cs IH] using tree_rect'.
  assert (Hfault : existsb reaches_empty_Key cs = true ->
                   Exists (fun c => makeJSON c = Panic) cs).
  { intros H. apply existsb_exists in H as (c & Hin & Hc).
    apply List.Exists_exists. exists c. split; [exact Hin|].
    rewrite List.Forall_forall in IH. apply (IH c Hin), Hc. }
  assert (Hvalue : existsb reaches_empty_Key cs = false ->
                   Forall (fun c => exists v, makeJSON c = Ok v) cs).
  { intros H. apply List.Forall_forall. intros c Hin.
    rewrite List.Forall_forall in IH. apply (IH c Hin).
    destruct (reaches_empty_Key c) eqn:Hc; [|reflexivity].
    rewrite <- H. apply eq_sym, existsb_exists. exists c. split; assumption. }
  destruct (refJSONType ref) eqn:Hty; simpl reaches_empty_Key; rewrite Hty.
  - rewrite makeJSON_Object by exact Hty. split; intros H.
    + apply objectRange_fault, Hfault, H.
    + apply objectRange_total, Hvalue, H.
  - rewrite makeJSON_Array by exact Hty. split; intros H.
    + apply arrayRange_fault, Hfault, H.
    + apply arrayRange_total, Hvalue, H.
  - destruct cs as [|v rest].
    + split; [intros _; simpl; rewrite Hty; reflexivity | discriminate].
    + inversion IH as [|? ? [IHfault IHvalue] _]; subst.
      destruct (decide (refJSONType (GetReference v) = Value)) as [Hv|Hv].
      * rewrite makeJSON_Key_leaf by assumption. split; [discriminate | eauto].
      * rewrite makeJSON_Key_composite by assumption. split; intros H.
        -- rewrite (IHfault H). reflexivity.
        -- destruct (IHvalue H) as [x Hx]. rewrite Hx. simpl. eauto.
  - rewrite makeJSON_Value by exact Hty. split; [discriminate | eauto].
Qed.

(** X4.  [makeJSON] faults exactly when it comes to a [Key] node that has
    no child, going from an [Object] or [Array] node to every child and
    from a [Key] node to child 0 unless that is a [Value] node; on every
    other tree it returns a value.  A [Key] node without children that
    lies below a [Value] node, or beside child 0 of a [Key] node, does no
    harm. *)
Theorem makeJSON_faults_exactly t :
  (makeJSON t = Panic <-> reaches_empty_Key t = true)
  /\ ((exists v, makeJSON t = Ok v) <-> reaches_empty_Key t = false).
Proof.
  destruct (makeJSON_fault_or_value t) as [Hfault Hvalue].
  split; (split; [|auto]).
  - intros H. destruct (reaches_empty_Key t); [reflexivity|].
    destruct (Hvalue eq_refl) as [v Hv]. congruence.
  - intros [v Hv]. destruct (reaches_empty_Key t); [|reflexivity].
    rewrite (Hfault eq_refl) in Hv. discriminate.
Qed.

(** ** Queries with a capital letter *)

Lemma lower_byte_not_upper c : is_upper (strings.lower_byte c) = false.
Proof. destruct c as [[] [] [] [] [] [] [] []]; reflexivity. Qed.

Lemma lower_ascii_no_upper s : has_upper (strings.lower_ascii s) = false.
Proof.
  induction s as [|c s IH]; simpl; [reflexivity|].
  rewrite lower_byte_not_upper, IH. reflexivity.
Qed.

Lemma ToLower_no_upper :
  (forall s, has_upper (Map_ToLower s) = false) ->
  forall s, has_upper (strings.ToLower Map_ToLower s) = false.
Proof.
  intros Hmap s. unfold strings.ToLower.
  destruct (strings.isASCII s); [apply lower_ascii_no_upper | apply Hmap].
Qed.

Lemma has_upper_append a b :
  has_upper (String.append a b) = has_upper a || has_upper b.
Proof.
  induction a as [|c a IH]; simpl; [reflexivity|].
  rewrite IH, orb_assoc. reflexivity.
Qed.

Lemma matches_no_upper label text :
  (forall s, has_upper (Map_ToLower s) = false) ->
  has_upper text = true -> matches label text = false.
Proof.
  intros Hmap Hup. destruct (matches label text) eqn:Hm; [|reflexivity].
  apply matches_spec in Hm as (a & b & Hab).
  pose proof (ToLower_no_upper Hmap label) as Hlow.
  rewrite Hab, !has_upper_append, Hup, orb_true_r in Hlow. discriminate.
Qed.

Lemma filter_node_no_upper text t :
  (forall label, matches label text = false) -> filter_node text t = [].
Proof.
  intros Hno. induction t as [label ref cs IH] using tree_rect'.
  simpl. rewrite (Hno label).
  induction IH as [|c cs Hc _ IHcs]; simpl; [reflexivity|].
  rewrite Hc, IHcs. reflexivity.
Qed.

Lemma filter_forest_no_upper text ts :
  (forall label, matches label text = false) -> filter_forest text ts = [].
Proof.
  intros Hno. induction ts as [|t ts IH]; [reflexivity|].
  rewrite filter_forest_cons, IH, (filter_node_no_upper text t Hno). reflexivity.
Qed.

(** ** What the walk returns *)

Lemma filter_node_sound q t :
  Forall (fun u => matches (GetText u) q = true) (filter_node q t).
Proof.
  induction t as [label ref cs IH] using tree_rect'. simpl.
  destruct (matches label q) eqn:Hm.
  - constructor; [exact Hm | constructor].
  - induction IH as [|c cs Hc _ IHcs]; simpl; [constructor|].
    apply Forall_app. split; assumption.
Qed.

Lemma filter_node_nil q t : filter_node q t = [] <-> any_match q t = false.
Proof.
  induction t as [label ref cs IH] using tree_rect'. simpl.
  destruct (matches label q); simpl; [split; discriminate|].
  induction IH as [|c cs Hc _ IHcs]; simpl; [split; reflexivity|].
  rewrite orb_false_iff, <- Hc, <- IHcs. split.
  - intros H. apply app_eq_nil in H. exact H.
  - intros [-> ->]. reflexivity.
Qed.

Lemma filter_forest_sound q ts :
  Forall (fun u => matches (GetText u) q = true) (filter_forest q ts).
Proof.
  induction ts as [|t ts IH]; [constructor|].
  rewrite filter_forest_cons. apply Forall_app. split; [apply filter_node_sound | exact IH].
Qed.

Lemma filter_forest_nil q ts :
  filter_forest q ts = [] <-> existsb (any_match q) ts = false.
Proof.
  induction ts as [|t ts IH]; [split; reflexivity|].
  rewrite filter_forest_cons. simpl. rewrite orb_false_iff, <- IH, <- filter_node_nil.
  split.
  - intros H. apply app_eq_nil in H. exact H.
  - intros [-> ->]. reflexivity.
Qed.

(** X6.  On nodes that denote trees, [walk] returns only nodes whose own
    lowered label contains the query, and it returns no node exactly when
    no node of these trees, at any depth, has such a label. *)
Theorem walk_sound_and_complete fuel h nodes ts text :
  Forall2 (fun p t => tree_of fuel h p = Some t) nodes ts ->
  exists r,
    walk (S fuel) h nodes text = Ok r
    /\ Forall (fun p => exists c, h !! p = Some c /\ matches (n_text c) text = true) r
    /\ (r = [] <-> existsb (any_match text) ts = false).
Proof.
  intros H. destruct (walk_denotes fuel h nodes ts text H) as (r & Hr & Hts).
  exists r. split; [exact Hr|]. split.
  - pose proof (filter_forest_sound text ts) as Hsound. clear Hr.
    induction Hts as [|p u r us Hp _ IHr]; [constructor|].
    inversion Hsound as [|? ? Hu Hus]; subst. constructor; [|apply IHr, Hus].
    apply tree_of_cell in Hp as (c & Hc & Ht & _). exists c. split; [exact Hc|].
    rewrite Ht. exact Hu.
  - rewrite <- filter_forest_nil. apply Forall2_length in Hts. split.
    + intros ->. destruct (filter_forest text ts); [reflexivity | discriminate].
    + intros Hnil. rewrite Hnil in Hts. destruct r; [reflexivity | discriminate].
Qed.


(** ** The filter and what is saved *)

Lemma walkRange_extends fuel h h' text :
  extends h h' ->
  (forall nodes r, walk fuel h nodes text = Ok r -> walk fuel h' nodes text = Ok r) ->
  forall ns acc r,
    walkRange fuel h text ns acc = Ok r -> walkRange fuel h' text ns acc = Ok r.
Proof.
  intros Hext IH. induction ns as [|child ns IHns]; intros acc r; [trivial|].
  rewrite !walkRange_cons. unfold deref.
  destruct (h !! child) as [c|] eqn:Hc; [|discriminate].
  rewrite (Hext _ _ Hc). cbn [mbind Res_bind].
  destruct (matches (n_text c) text); [apply IHns|].
  destruct (walk fuel h (n_children c) text) as [r1| |] eqn:Hw; [|discriminate..].
  rewrite (IH _ _ Hw). cbn [mbind Res_bind]. apply IHns.
Qed.

(** [walk] reads the store only at the nodes it visits: in a store that
    has grown it returns the same nodes. *)
Lemma walk_extends fuel h h' text :
  extends h h' ->
  forall nodes r, walk fuel h nodes text = Ok r -> walk fuel h' nodes text = Ok r.
Proof.
  intros Hext. induction fuel as [|fuel IH]; intros nodes r; [discriminate|].
  rewrite !walk_S. apply walkRange_extends; assumption.
Qed.

Lemma insert_last (h : store) c c' : <[length h := c']> (h ++ [c]) = h ++ [c'].
Proof. rewrite insert_app_r_alt by lia. rewrite Nat.sub_diag. reflexivity. Qed.

(** One filter call with a query that is not empty, in full: the new
    root is a fresh node with the text and reference of the snapshot's
    root, and its children are what [walk] returns for the children of the
    snapshot's root. *)
Lemma Search_filter fuel text g t :
  tree_of fuel (mem g) (OriginRoot g) = Some t -> text <> "" ->
  exists c r,
    mem g !! OriginRoot g = Some c
    /\ walk fuel (mem g) (n_children c) text = Ok r
    /\ Search fuel text g
       = Ok (mkGui (mem g ++ [mkTreeNode (GetText t) (GetReference t) r])
                   (length (mem g)) (currentNode g) (OriginRoot g))
    /\ Forall2 (fun p u => tree_of (pred fuel) (mem g) p = Some u)
               r (filter_forest text (GetChildren t)).
Proof.
  intros Ht Hne. destruct fuel as [|fuel]; [discriminate|].
  apply tree_of_S in Ht as (c & cs & Hc & Hcs & ->).
  destruct (walk_denotes fuel (mem g) (n_children c) cs text Hcs) as (r & Hr & Hts).
  exists c, r. split; [exact Hc|]. split; [exact Hr|]. split; [|exact Hts].
  unfold Search. rewrite (deref_Some _ _ _ Hc). cbn [mbind Res_bind new].
  destruct (String.eqb_spec text "") as [|_]; [contradiction|]. cbn [negb].
  cbn [root mem currentNode OriginRoot].
  assert (Hnew : (mem g ++ [c]) !! length (mem g) = Some c)
    by (apply list_lookup_middle; reflexivity).
  rewrite (deref_Some _ _ _ Hnew). cbn [mbind Res_bind].
  rewrite (walk_extends _ _ _ _ (extends_app (mem g) [c]) _ _ Hr).
  cbn [mbind Res_bind]. unfold SetChildren. rewrite (deref_Some _ _ _ Hnew).
  cbn [mbind Res_bind]. rewrite insert_last. reflexivity.
Qed.

(** One call with the empty query: the new root denotes the snapshot's
    tree. *)
Lemma Search_reset fuel g t :
  tree_of fuel (mem g) (OriginRoot g) = Some t ->
  exists g', Search fuel "" g = Ok g' /\ tree_of fuel (mem g') (root g') = Some t.
Proof.
  intros Ht. destruct (Search_step fuel "" g t Ht) as (g' & Hs & Hext & _ & _ & _ & Hroot).
  specialize (Hroot eq_refl). exists g'. split; [exact Hs|].
  destruct fuel as [|fuel]; [discriminate|].
  apply tree_of_S in Ht as (c & cs & Hc & Hcs & ->).
  apply tree_of_S. exists c, cs. split; [congruence|]. split; [|reflexivity].
  eapply Forall2_impl; [exact Hcs|]. intros q u. apply tree_of_extends, Hext.
Qed.

Lemma Search_filter_denotes fuel text g t :
  tree_of fuel (mem g) (OriginRoot g) = Some t -> text <> "" ->
  exists g', Search fuel text g = Ok g'
    /\ tree_of fuel (mem g') (root g')
       = Some (Node (GetText t) (GetReference t) (filter_forest text (GetChildren t))).
Proof.
  intros Ht Hne.
  destruct (Search_filter fuel text g t Ht Hne) as (c & r & _ & _ & Hs & Hts).
  eexists. split; [exact Hs|]. cbn [mem root].
  destruct fuel as [|fuel]; [discriminate|]. apply tree_of_S.
  eexists _, _. split; [apply list_lookup_middle; reflexivity|].
  split; [|reflexivity]. cbn [n_children].
  eapply Forall2_impl; [exact Hts|]. intros q u. apply tree_of_extends, extends_app.
Qed.

(** X5.  A query that holds one of the letters 'A'..'Z' matches no label
    at all, whatever the case of the label: the label is lowered before
    the test and the query is not.  [walk] then returns no node, and the
    filter call leaves the tree view with a root that has no children.
    For a label that is not ASCII this rests on the Unicode tables never
    yielding one of the bytes 'A'..'Z', which is stated as the first
    premise. *)
Theorem capital_in_query_matches_nothing text :
  (forall s, has_upper (Map_ToLower s) = false) ->
  has_upper text = true ->
  (forall label, matches label text = false)
  /\ (forall fuel h nodes ts,
        Forall2 (fun p t => tree_of fuel h p = Some t) nodes ts ->
        walk (S fuel) h nodes text = Ok [])
  /\ (forall fuel g t,
        tree_of fuel (mem g) (OriginRoot g) = Some t ->
        exists g', Search fuel text g = Ok g' /\ displayed g' = Some []).
Proof.
  intros Hmap Hup.
  assert (Hno : forall label, matches label text = false)
    by (intros label; apply matches_no_upper; assumption).
  split; [exact Hno|]. split.
  - intros fuel h nodes ts H.
    destruct (walk_denotes fuel h nodes ts text H) as (r & Hr & Hts).
    rewrite (filter_forest_no_upper text ts Hno) in Hts.
    inversion Hts; subst. exact Hr.
  - intros fuel g t Ht.
    assert (Hne : text <> "") by (intros ->; discriminate).
    destruct (Search_filter fuel text g t Ht Hne) as (c & r & _ & _ & Hs & Hts).
    rewrite (filter_forest_no_upper text _ Hno) in Hts. inversion Hts; subst.
    eexists. split; [exact Hs|]. unfold displayed. cbn [mem root].
    rewrite list_lookup_middle by reflexivity. reflexivity.
Qed.

(** X7.  Every filter call starts from the snapshot, not from what the
    call before it left on display: after any sequence of queries, the
    query [text] (not empty) puts on display, under a fresh root with the
    text and reference of the snapshot's root, exactly the nodes that it
    puts on display when it is the first query, and they denote the filter
    of the snapshot's children.  The snapshot pointer stays. *)
Theorem Search_filters_the_snapshot fuel queries text g t :
  tree_of fuel (mem g) (OriginRoot g) = Some t -> text <> "" ->
  exists g0 g1 g2,
    Search fuel text g = Ok g0
    /\ filters fuel queries g = Ok g1 /\ Search fuel text g1 = Ok g2
    /\ displayed g2 = displayed g0
    /\ tree_of fuel (mem g2) (root g2)
       = Some (Node (GetText t) (GetReference t) (filter_forest text (GetChildren t)))
    /\ OriginRoot g2 = OriginRoot g.
Proof.
  intros Ht Hne.
  destruct (Search_filter fuel text g t Ht Hne) as (c & r & Hc & Hr & Hs & _).
  destruct (filters_run fuel queries g t Ht) as (g1 & Hf & Hext & Ho & _).
  assert (Ht1 : tree_of fuel (mem g1) (OriginRoot g1) = Some t).
  { rewrite Ho. eapply tree_of_extends; eassumption. }
  destruct (Search_filter fuel text g1 t Ht1 Hne) as (c1 & r1 & Hc1 & Hr1 & Hs1 & _).
  destruct (Search_filter_denotes fuel text g1 t Ht1 Hne) as (g2 & Hs2 & Hroot).
  assert (c1 = c) as ->.
  { rewrite Ho, (Hext _ _ Hc) in Hc1. congruence. }
  assert (r1 = r) as ->.
  { rewrite (walk_extends _ _ _ _ Hext _ _ Hr) in Hr1. congruence. }
  eexists _, g1, g2. split; [exact Hs|]. split; [exact Hf|]. split; [exact Hs2|].
  rewrite Hs1 in Hs2. injection Hs2 as <-. split; [|split; [exact Hroot | exact Ho]].
  unfold displayed. cbn [mem root].
  rewrite !list_lookup_middle by reflexivity. reflexivity.
Qed.

(** X8.  [SaveJSON] serializes the root of the tree view, which after a
    filter call is the filtered copy: with a query that is not empty the
    value handed to the encoder is [makeJSON] of the snapshot's root over
    the filtered children only, so the nodes that the filter hides are not
    saved; after the empty query it is [makeJSON] of the whole snapshot. *)
Theorem SaveJSON_saves_the_filtered_tree fuel text g t :
  tree_of fuel (mem g) (OriginRoot g) = Some t ->
  exists g',
    Search fuel text g = Ok g'
    /\ SaveJSON_value fuel g'
       = makeJSON (Node (GetText t) (GetReference t)
                     (if String.eqb text "" then GetChildren t
                      else filter_forest text (GetChildren t))).
Proof.
  intros Ht. destruct (String.eqb_spec text "") as [->|Hne].
  - destruct (Search_reset fuel g t Ht) as (g' & Hs & Hroot).
    exists g'. split; [exact Hs|]. rewrite (SaveJSON_value_denotes _ _ _ Hroot).
    destruct t. reflexivity.
  - destruct (Search_filter_denotes fuel text g t Ht Hne) as (g' & Hs & Hroot).
    exists g'. split; [exact Hs|]. apply SaveJSON_value_denotes, Hroot.
Qed.


(** ** Grafts that are displayed and not saved *)





(** ** Loading and saving *)

Lemma forallb_map_true {A B} (f : B -> bool) (g : A -> B) l :
  Forall (fun x => f (g x) = true) l -> forallb f (List.map g l) = true.
Proof.
  induction 1 as [|x l Hx _ IH]; simpl; [reflexivity|]. rewrite Hx, IH. reflexivity.
Qed.

(** Every [Key] node of a built tree has exactly one child. *)
Lemma build_key_invariant v : key_invariant (build v) = true.
Proof.
  induction v as [|b|n|s|l IH|o IH] using JSON_rect'; try reflexivity.
  - destruct n; reflexivity.
  - simpl. apply forallb_map_true, IH.
  - simpl. apply forallb_map_true. eapply Forall_impl; [exact IH|].
    intros [k x] Hx. simpl in Hx |- *. rewrite Hx. reflexivity.
Qed.

(** X10.  A load that decodes puts the tree built from the decoded value
    on display, under a fresh root and whatever the editor held before; a
    save right after it does not fault, and hands [makeJSON] of that tree
    to the encoder. *)
Theorem load_then_save file i g :
  UnMarshalJSON file = inl i ->
  exists g' v,
    LoadJSON (inl file) g = Ok (None, g')
    /\ tree_of (height (build i)) (mem g') (root g') = Some (build i)
    /\ tree_of (height (build i)) (mem g') (OriginRoot g') = Some (build i)
    /\ (length (mem g) <= root g')%nat
    /\ SaveJSON_value (height (build i)) g' = Ok v
    /\ makeJSON (build i) = Ok v.
Proof.
  intros Hi. destruct (makeJSON_total (build i) (build_key_invariant i)) as [v Hv].
  exists (UpdateView i g), v. unfold LoadJSON. rewrite Hi.
  destruct (UpdateView_denotes i g) as (Hroot & Ho & _ & _).
  split; [reflexivity|]. split; [exact Hroot|]. split; [exact Ho|].
  split; [|split; [rewrite <- Hv; apply SaveJSON_value_denotes, Hroot | exact Hv]].
  unfold UpdateView. destruct (build i) as [text ref children]. simpl GetChildren.
  destruct (allocs_ok children) with (h := mem g) as (d & Hd & _ & _).
  { apply List.Forall_forall. intros u _. apply alloc_spec. }
  destruct (allocs children (mem g)) as [ps h1]. simpl in Hd. subst h1.
  unfold new. cbn [root]. rewrite length_app. lia.
Qed.

End Gui.

(** * Closed examples

    The examples fix the parameters.  No float occurs in them, so one
    value stands for [float64]; the decoder knows the fragment
    [{"x":1,"y":2}] and the literal [null], and rejects everything else. *)

Definition example_ParseFloat (s : string) : unit * option strconv.NumError :=
  (tt, None).

Definition example_FormatFloat (f : unit) : string := "0.5".

(** The Unicode mapping of the examples lowers the letters 'A'..'Z' and
    leaves every other byte.  The labels of the examples are ASCII, which
    never reaches it; the one label that is not, in the example of X5,
    does. *)
Definition example_Map_ToLower : string -> string := strings.lower_ascii.

Definition quote : string := String.String (ascii_of_nat 34) EmptyString.

(** The text [{"x":1,"y":2}]. *)
Definition fragment_xy : string :=
  String.append "{" (String.append quote (String.append "x" (String.append quote
    (String.append ":1," (String.append quote (String.append "y" (String.append quote
      ":2}"))))))).

Definition value_xy : @JSON unit :=
  JObject [("x", JNumber (NInt 1)); ("y", JNumber (NInt 2))].

Definition example_Unmarshal (b : string) : @JSON unit + string :=
  if String.eqb b fragment_xy then inl value_xy
  else if String.eqb b "null" then inl JNull
  else inr "invalid character".

Definition example_rootLabel (i : @JSON unit) : string * Reference :=
  match i with
  | JObject _ => ("{object}", mkReference Object String)
  | JArray _ => ("{array}", mkReference Array String)
  | _ => ("{value}", mkReference Key String)
  end.

(** The document [{"alpha":1,"beta":{"gamma":2}}] and the editor that has
    loaded it into an empty store: node 6 is the root, node 7 the
    snapshot, nodes 1 and 5 the keys [alpha] and [beta].  [UpdateView]
    reads the store it starts from and nothing else, and sets the root,
    the selection and the snapshot anew. *)
Definition example_doc : @JSON unit :=
  JObject [("alpha", JNumber (NInt 1));
           ("beta", JObject [("gamma", JNumber (NInt 2))])].

Definition example_gui : Gui :=
  UpdateView example_FormatFloat example_doc (mkGui [] 0 0 0).

Definition example_store : list TreeNode := mem example_gui.

Definition example_alpha : tree :=
  Node "alpha" (mkReference Key String) [Node "1" (mkReference Value Int) []].

Definition example_gamma : tree :=
  Node "gamma" (mkReference Key String) [Node "2" (mkReference Value Int) []].

Definition example_beta : tree :=
  Node "beta" (mkReference Key String) [Node "" (mkReference Object String) [example_gamma]].

Definition example_root : tree :=
  Node "" (mkReference Object String) [example_alpha; example_beta].

Definition example_x : tree :=
  Node "x" (mkReference Key String) [Node "1" (mkReference Value Int) []].

Definition example_y : tree :=
  Node "y" (mkReference Key String) [Node "2" (mkReference Value Int) []].

(** A [Key] node with two children. *)
Definition example_two_children : tree :=
  Node "k" (mkReference Key String)
    [Node "1" (mkReference Value Int) []; Node "2" (mkReference Value Int) []].

Definition example_value : @JSON unit :=
  JArray [ JObject [("a", JNumber (NInt 1)); ("b", JString "x"); ("c", JNull)];
           JArray [JBool true; JNumber (NInt (-5))] ].

Definition example_unsorted : @JSON unit :=
  JObject [("b", JNumber (NInt 1)); ("a", JNumber (NInt 2))].

(** C2, the claim as stated fails: the empty array has no object in it,
    and comes back as [null]; the object [{"b":1,"a":2}] comes back with
    its keys in the other order; the integral number [2^63] comes back as
    [2^63 - 1]. *)
Lemma round_trip_fails_on_empty_array :
  everywhere flat_object (@JArray unit []) = true
  /\ encode <$> makeJSON example_ParseFloat (build example_FormatFloat (JArray []))
     = Ok JNull
  /\ @JNull unit <> JArray []
  /\ everywhere flat_object example_unsorted = true
  /\ encode <$> makeJSON example_ParseFloat (build example_FormatFloat example_unsorted)
     = Ok (JObject [("a", JNumber (NInt 2)); ("b", JNumber (NInt 1))])
  /\ JObject [("a", JNumber (NInt 2)); ("b", JNumber (NInt 1))] <> example_unsorted
  /\ encode <$> makeJSON example_ParseFloat
                  (build example_FormatFloat (JNumber (NInt (2 ^ 63))))
     = Ok (JNumber (NInt (2 ^ 63 - 1))).
Proof. repeat split; discriminate. Qed.

Lemma round_trip_witness :
  (forall f, example_ParseFloat (example_FormatFloat f) = (f, None))
  /\ everywhere flat_object example_value = true
  /\ encode <$> makeJSON example_ParseFloat (build example_FormatFloat example_value)
     = Ok example_value
  /\ exists w,
       encode <$> makeJSON example_ParseFloat (build example_FormatFloat example_unsorted)
       = Ok w
       /\ deep_equal example_unsorted w
       /\ w <> example_unsorted.
Proof.
  assert (H : forall f, example_ParseFloat (example_FormatFloat f) = (f, None))
    by (intros []; reflexivity).
  split; [exact H|]. split; [reflexivity|]. split.
  - destruct (build_makeJSON_round_trip example_ParseFloat example_FormatFloat H
                example_value eq_refl eq_refl eq_refl eq_refl)
      as (w & Hw & _ & Hsame).
    rewrite Hw. f_equal. apply Hsame. reflexivity.
  - destruct (build_makeJSON_round_trip example_ParseFloat example_FormatFloat H
                example_unsorted eq_refl eq_refl eq_refl eq_refl)
      as (w & Hw & Heq & Hsame).
    exists w. split; [exact Hw|]. split; [exact Heq|].
    intros Hw'. apply Hsame in Hw'. discriminate.
Defined.

(** C3, the claim as stated fails: the leaf [abc] of type [Int] parses to
    the integer 0, not to the string [abc]. *)
Lemma parseValue_returns_zero_not_text :
  snd (strconv.Atoi "abc") = Some strconv.ErrSyntax
  /\ parseValue example_ParseFloat (Node "abc" (mkReference Value Int) []) = GInt 0
  /\ @GInt unit 0 <> GString "abc".
Proof. repeat split. discriminate. Qed.

Lemma parseValue_drops_the_error_witness :
  parseValue example_ParseFloat (Node "12x" (mkReference Value Int) []) = GInt 0
  /\ parseValue example_ParseFloat
       (Node "9223372036854775808" (mkReference Value Int) [])
     = GInt strconv.maxInt
  /\ parseValue example_ParseFloat
       (Node "-9223372036854775809" (mkReference Value Int) [])
     = GInt strconv.minInt
  /\ parseValue example_ParseFloat
       (Node "99999999999999999999x" (mkReference Value Int) [])
     = GInt strconv.maxInt
  /\ parseValue example_ParseFloat (Node "yes" (mkReference Value Boolean) [])
     = GBool false.
Proof.
  split; [|split; [|split; [|split]]].
  - apply (proj1 (parseValue_drops_the_error example_ParseFloat
                    (Node "12x" (mkReference Value Int) []))); reflexivity.
  - destruct (parseValue_drops_the_error example_ParseFloat
                (Node "9223372036854775808" (mkReference Value Int) []))
      as (_ & _ & Hdec & _).
    apply (proj1 (Hdec eq_refl "9223372036854775808" (2 ^ 63)
                    ltac:(discriminate) eq_refl)); reflexivity.
  - destruct (parseValue_drops_the_error example_ParseFloat
                (Node "-9223372036854775809" (mkReference Value Int) []))
      as (_ & _ & Hdec & _).
    apply (proj2 (Hdec eq_refl "9223372036854775809" (2 ^ 63 + 1)
                    ltac:(discriminate) eq_refl)); reflexivity.
  - apply (proj1 (proj2 (parseValue_drops_the_error example_ParseFloat
                    (Node "99999999999999999999x" (mkReference Value Int) []))));
      reflexivity.
  - destruct (parseValue_drops_the_error example_ParseFloat
                (Node "yes" (mkReference Value Boolean) []))
      as (_ & _ & _ & Hbool & _).
    apply Hbool; [reflexivity | discriminate].
Defined.

Lemma walk_refines_witness :
  exists r, walk example_Map_ToLower 5 example_store [1%nat; 5%nat] "gam" = Ok r
    /\ Forall2 (fun p t => tree_of 4 example_store p = Some t) r
               (filter_forest example_Map_ToLower "gam"
                  [example_alpha; example_beta]).
Proof.
  apply (proj1 (walk_refines_filter_forest example_Map_ToLower 4 example_store
                  [1%nat; 5%nat]
                  [example_alpha; example_beta] "gam"
                  ltac:(repeat constructor))).
Defined.

Lemma filter_then_reset_witness :
  exists g1 g2,
    filters example_Map_ToLower 5 ["gam"; "zzz"; "A"] example_gui = Ok g1
    /\ Search example_Map_ToLower 5 "" g1 = Ok g2
    /\ tree_of 5 (mem g2) (root g2) = Some example_root
    /\ OriginRoot g2 = OriginRoot example_gui
    /\ tree_of 5 (mem g2) (OriginRoot g2) = Some example_root
    /\ extends (mem example_gui) (mem g1) /\ extends (mem example_gui) (mem g2).
Proof.
  apply (filter_then_reset_restores example_Map_ToLower 5 ["gam"; "zzz"; "A"]
           example_gui example_root).
  reflexivity.
Defined.

Lemma decode_failure_witness :
  UnMarshalJSON example_Unmarshal (inl "{invalid") = inr (DecodeError "invalid character")
  /\ AddNode example_FormatFloat example_Unmarshal example_rootLabel "{invalid" example_gui
     = Ok (Some (DecodeError "invalid character"), example_gui)
  /\ AddValue example_FormatFloat example_Unmarshal "{invalid" example_gui
     = Ok (Some (DecodeError "invalid character"), example_gui)
  /\ LoadJSON example_FormatFloat example_Unmarshal (inl (inl "{invalid")) example_gui
     = Ok (Some (DecodeError "invalid character"), example_gui).
Proof.
  destruct (decode_failure_leaves_tree example_FormatFloat example_Unmarshal
              example_rootLabel example_gui) as (_ & Hdec & _ & _ & Hgraft & Hload).
  assert (H : UnMarshalJSON example_Unmarshal (inl "{invalid")
              = inr (DecodeError "invalid character"))
    by (apply Hdec; [discriminate | reflexivity]).
  split; [exact H|].
  split; [apply (Hgraft "{invalid" _ H)|].
  split; [apply (Hgraft "{invalid" _ H) | apply (Hload _ _ H)].
Defined.

Lemma graft_placement_witness :
  exists ns h',
    AddValue example_FormatFloat example_Unmarshal fragment_xy example_gui
    = Ok (None, mkGui h' 6 6 6)
    /\ h' !! 6%nat = Some (mkTreeNode "" (mkReference Object String)
                                      ([1%nat; 5%nat] ++ ns))
    /\ length ns = 2%nat.
Proof.
  destruct (graft_placement example_FormatFloat example_Unmarshal example_rootLabel
              fragment_xy value_xy example_gui
              (mkTreeNode "" (mkReference Object String) [1%nat; 5%nat]))
    as [(ns & h' & Hrun & _ & Hcur & Hts & _) _].
  - discriminate.
  - reflexivity.
  - reflexivity.
  - exists ns, h'. split; [exact Hrun|]. split; [exact Hcur|].
    apply Forall2_length in Hts. exact Hts.
Defined.

Lemma makeJSON_defined_witness :
  (exists v, makeJSON example_ParseFloat example_root = Ok v)
  /\ (exists v, makeJSON example_ParseFloat
                  (Node "" (mkReference Array String) [example_two_children]) = Ok v).
Proof.
  destruct (makeJSON_defined_under_key_invariant example_ParseFloat)
    as (_ & Hchild & _ & Hinv & _).
  split; [apply Hinv | apply Hchild]; reflexivity.
Defined.

(** C10, the claim as stated fails: a [Key] node with two children breaks
    the invariant of exactly one child, and the serializer returns a value
    for it all the same, the value of child 0. *)
Lemma makeJSON_total_beyond_invariant :
  key_invariant example_two_children = false
  /\ makeJSON example_ParseFloat example_two_children = Ok (GInt 1).
Proof. split; reflexivity. Qed.

(** C8 (the code departs from the claim).  The tree of
    [{"alpha":1,"beta":{"gamma":2}}] is filtered by [gam], the root on
    display is selected and [{"x":1,"y":2}] is grafted, by [AddValue] or
    by [AddNode].  The snapshot pointer is set to the root of the tree
    view, which is the filtered root: the snapshot then holds [gamma] and
    the graft only, and so does the display after the filter is reset.
    [alpha] and [beta], which the full tree has, are in neither.  Without
    the filter the same graft leaves the full tree in the snapshot. *)
Theorem graft_under_filter_drops_nodes :
  tree_of 5 (mem example_gui) (OriginRoot example_gui) = Some example_root
  /\ (g1 ← Search example_Map_ToLower 5 "gam" example_gui;
      r ← AddValue example_FormatFloat example_Unmarshal fragment_xy
            (SetCurrentNode (root g1) g1);
      g3 ← Search example_Map_ToLower 5 "" (snd r);
      Ok (fst r, OriginRoot (snd r) =? root (snd r),
          tree_of 5 (mem (snd r)) (OriginRoot (snd r)),
          tree_of 5 (mem g3) (root g3)))%nat
     = Ok (None, true,
           Some (Node "" (mkReference Object String)
                   [example_gamma; example_x; example_y]),
           Some (Node "" (mkReference Object String)
                   [example_gamma; example_x; example_y]))
  /\ (g1 ← Search example_Map_ToLower 5 "gam" example_gui;
      r ← AddNode example_FormatFloat example_Unmarshal example_rootLabel fragment_xy
            (SetCurrentNode (root g1) g1);
      g3 ← Search example_Map_ToLower 5 "" (snd r);
      Ok (fst r, OriginRoot (snd r) =? root (snd r),
          tree_of 5 (mem (snd r)) (OriginRoot (snd r)),
          tree_of 5 (mem g3) (root g3)))%nat
     = Ok (None, true,
           Some (Node "" (mkReference Object String)
                   [example_gamma;
                    Node "{object}" (mkReference Object String)
                      [example_x; example_y]]),
           Some (Node "" (mkReference Object String)
                   [example_gamma;
                    Node "{object}" (mkReference Object String)
                      [example_x; example_y]]))
  /\ (r ← AddValue example_FormatFloat example_Unmarshal fragment_xy example_gui;
      Ok (fst r, tree_of 5 (mem (snd r)) (OriginRoot (snd r))))
     = Ok (None,
           Some (Node "" (mkReference Object String)
                   [example_alpha; example_beta; example_x; example_y])).
Proof. repeat split. Qed.

(** ** Examples for the further properties *)

(** X1: two children carry the label [a]; the map binds [a] to the value
    of the second one. *)
Lemma makeJSON_Object_bindings_witness :
  exists m,
    makeJSON example_ParseFloat
      (Node "" (mkReference Object String)
         [Node "a" (mkReference Key String) [Node "1" (mkReference Value Int) []];
          example_x;
          Node "a" (mkReference Key String) [Node "2" (mkReference Value Int) []]])
    = Ok (GMap m)
    /\ map_get m "a" = Some (GInt 2)
    /\ map_get m "x" = Some (GInt 1)
    /\ map_get m "b" = None.
Proof.
  destruct (makeJSON_Object_bindings example_ParseFloat "" String
              [Node "a" (mkReference Key String) [Node "1" (mkReference Value Int) []];
               example_x;
               Node "a" (mkReference Key String) [Node "2" (mkReference Value Int) []]]
              [GInt 1; GInt 1; GInt 2])
    as (m & Hm & Hget).
  - repeat constructor.
  - exists m. split; [exact Hm|]. rewrite !Hget. repeat split.
Defined.

(** X2: the values of two [Key] children in an [Array] node, and a fault
    below an [Array] node. *)
Lemma makeJSON_Array_values_witness :
  makeJSON example_ParseFloat (Node "" (mkReference Array String) [example_x; example_y])
  = Ok (GSlice (Some [GInt 1; GInt 2]))
  /\ makeJSON example_ParseFloat
       (Node "" (mkReference Array String)
          [example_x; Node "k" (mkReference Key String) []])
     = Panic.
Proof.
  split.
  - apply (proj1 (makeJSON_Array_values example_ParseFloat "" String
                    [example_x; example_y]) [GInt 1; GInt 2]).
    repeat constructor.
  - apply (proj2 (makeJSON_Array_values example_ParseFloat "" String
                    [example_x; Node "k" (mkReference Key String) []])).
    apply Exists_cons_tl, Exists_cons_hd. reflexivity.
Defined.

(** X3: [alpha] with nodes under its leaf and a second child serializes
    as [alpha] does. *)
Lemma makeJSON_ignores_hidden_children_witness :
  makeJSON example_ParseFloat example_alpha
  = makeJSON example_ParseFloat
      (Node "alpha" (mkReference Key String)
         [Node "1" (mkReference Value Int) [example_x]; example_y]).
Proof.
  apply (makeJSON_ignores_hidden_children example_ParseFloat).
  apply same_Key; [reflexivity|]. apply same_Value. reflexivity.
Defined.

(** X5: the query [Gam] finds nothing in the loaded document, and the
    query [B] does not find the label made of the bytes 195, 132 and [B],
    which is not ASCII. *)
Lemma capital_in_query_witness :
  (forall s, has_upper (example_Map_ToLower s) = false)
  /\ matches example_Map_ToLower "gamma" "Gam" = false
  /\ matches example_Map_ToLower "GAMMA" "Gam" = false
  /\ matches example_Map_ToLower
       (String.String (ascii_of_nat 195) (String.String (ascii_of_nat 132) "B")) "B"
     = false
  /\ walk example_Map_ToLower 5 example_store [1%nat; 5%nat] "Gam" = Ok []
  /\ exists g',
       Search example_Map_ToLower 5 "Gam" example_gui = Ok g'
       /\ displayed g' = Some [].
Proof.
  split; [exact lower_ascii_no_upper|].
  destruct (capital_in_query_matches_nothing example_Map_ToLower "Gam"
              lower_ascii_no_upper eq_refl) as (Hm & Hw & Hs).
  split; [apply Hm|]. split; [apply Hm|]. split.
  { apply (proj1 (capital_in_query_matches_nothing example_Map_ToLower "B"
                    lower_ascii_no_upper eq_refl)). }
  split.
  - apply (Hw 4%nat example_store [1%nat; 5%nat] [example_alpha; example_beta]).
    repeat constructor.
  - apply (Hs 5%nat example_gui example_root). reflexivity.
Defined.

(** X6: the query [gam] on the loaded document. *)
Lemma walk_sound_and_complete_witness :
  exists r,
    walk example_Map_ToLower 5 example_store [1%nat; 5%nat] "gam" = Ok r
    /\ Forall (fun p => exists c, example_store !! p = Some c
                                  /\ matches example_Map_ToLower (n_text c) "gam"
                                     = true) r
    /\ (r = [] <-> existsb (any_match example_Map_ToLower "gam")
                            [example_alpha; example_beta] = false).
Proof.
  apply (walk_sound_and_complete example_Map_ToLower 4 example_store [1%nat; 5%nat]
           [example_alpha; example_beta] "gam").
  repeat constructor.
Defined.

(** X7: [gam] after [alp] and [zzz] shows what [gam] alone shows. *)
Lemma Search_filters_the_snapshot_witness :
  exists g0 g1 g2,
    Search example_Map_ToLower 5 "gam" example_gui = Ok g0
    /\ filters example_Map_ToLower 5 ["alp"; "zzz"] example_gui = Ok g1
    /\ Search example_Map_ToLower 5 "gam" g1 = Ok g2
    /\ displayed g2 = displayed g0
    /\ tree_of 5 (mem g2) (root g2)
       = Some (Node "" (mkReference Object String) [example_gamma])
    /\ OriginRoot g2 = OriginRoot example_gui.
Proof.
  apply (Search_filters_the_snapshot example_Map_ToLower 5 ["alp"; "zzz"] "gam"
           example_gui example_root).
  - reflexivity.
  - discriminate.
Defined.

(** X8: with the filter [gam] on, only [gamma] is saved. *)
Lemma SaveJSON_saves_the_filtered_tree_witness :
  exists g',
    Search example_Map_ToLower 5 "gam" example_gui = Ok g'
    /\ SaveJSON_value example_ParseFloat 5 g' = Ok (GMap [("gamma", GInt 2)]).
Proof.
  apply (SaveJSON_saves_the_filtered_tree example_ParseFloat example_Map_ToLower
           5 "gam" example_gui
           example_root).
  reflexivity.
Defined.


(** X10: the fragment [{"x":1,"y":2}] is loaded over the document. *)
Lemma load_then_save_witness :
  exists g',
    LoadJSON example_FormatFloat example_Unmarshal (inl (inl fragment_xy)) example_gui
    = Ok (None, g')
    /\ tree_of 3 (mem g') (root g')
       = Some (Node "" (mkReference Object String) [example_x; example_y])
    /\ (8 <= root g')%nat
    /\ SaveJSON_value example_ParseFloat 3 g' = Ok (GMap [("x", GInt 1); ("y", GInt 2)]).
Proof.
  destruct (load_then_save example_ParseFloat example_FormatFloat example_Unmarshal
              (inl fragment_xy) value_xy example_gui eq_refl)
    as (g' & v & Hload & Hroot & _ & Hfresh & Hsave & Hv).
  exists g'. split; [exact Hload|]. split; [exact Hroot|]. split; [exact Hfresh|].
  transitivity (Ok v); [exact Hsave | rewrite <- Hv; reflexivity].
Defined.
